(** * CombineClasses: similarity cliques of class types

    A shallow embedding of [CombineClasses.ts]: the type-set and class
    combinability heuristics, the greedy clique finder and the
    orchestrator that hands the cliques to the graph rewriter.  The
    accessor names of enum cases ([AccessorNames.ts]) and the telemetry
    switch ([telemetry.ts]) follow, each in a module of its own.

    Conventions.
    - An Immutable [Map<string, ClassProperty>] is a [gmap string _];
      [forEach] visits [map_to_list] from left to right.
    - An [OrderedSet<Type>] is the list of its elements in iteration
      order, and [size] is the length of that list.
    - A JavaScript array that the code mutates ([push]) is a list that is
      passed along explicitly; [push] appends at the end.
    - [assert] and [panic] throw; a function that may throw returns a
      [result].
    - The numbers involved are collection sizes and their products with
      3/4, all of which are exactly representable as doubles, so they are
      modelled by [Z] and [Q]. *)

From Stdlib Require Import QArith Qround.
From stdpp Require Import base option list gmap strings fin_maps.

Local Open Scope string_scope.
Local Open Scope list_scope.
Local Open Scope Z_scope.

(** ** Throwing computations *)

Inductive result (A : Type) : Type :=
| Ok (a : A)
| Panic (message : string).

Arguments Ok {A} a.
Arguments Panic {A} message.

Definition rbind {A B : Type} (m : result A) (k : A → result B) : result B :=
  match m with
  | Ok a => k a
  | Panic message => Panic message
  end.

Notation "'let*' x ':=' m 'in' k" := (rbind m (λ x, k))
  (at level 10, x pattern, m at level 100, k at level 200).

(** Modelled from the spec: [Support.panic] is not among the sources; it
    is the fatal "invariant violation" of the error taxonomy, which aborts
    the computation with its message. *)
Definition panic {A : Type} (message : string) : result A := Panic message.

(** Modelled from the spec: [Support.assert] is not among the sources; an
    assertion whose condition is false is an assertion failure carrying
    the message, one whose condition is true has no effect. *)
Definition assert (condition : bool) (message : string) : result unit :=
  if condition then Ok tt else panic message.

(** ** The consumed type model *)

Record ClassProperty (Ty : Type) : Type := mkClassProperty {
  type : Ty;
  isOptional : bool
}.

Arguments mkClassProperty {Ty} type isOptional.
Arguments type {Ty} c.
Arguments isOptional {Ty} c.

(** What [CombineClasses.ts] imports from [Type.ts] and [TypeGraph.ts]:
    type nodes with a kind and the exact structural comparison, class
    types (a subclass of types) with their property map and fixedness,
    and the enumeration of a graph's classes. *)
Class TypeModel : Type := {
  Ty : Type;
  ClassType : Type;
  TypeGraph : Type;
  upcast : ClassType → Ty;
  kind : Ty → string;
  structurallyCompatible : Ty → Ty → bool;
  nonNullTypeCases : Ty → list Ty;
  properties : ClassType → gmap string (ClassProperty Ty);
  isFixed : ClassType → bool;
  allNamedTypesSeparated_classes : TypeGraph → list ClassType
}.

Definition REQUIRED_OVERLAP : Q := 3 # 4.

(** [x < y] on exact numbers, as a boolean. *)
Definition Qlt_bool (x y : Q) : bool := negb (Qle_bool y x).

(** [size] of an Immutable collection as a JavaScript number. *)
Definition sizeQ (n : nat) : Q := inject_Z (Z.of_nat n).

(** The first test of [canBeCombined], on the two property counts. *)
Definition sizeGate (n1 n2 : nat) : bool :=
  Qlt_bool (sizeQ n1) (sizeQ n2 * REQUIRED_OVERLAP)
  || Qlt_bool (sizeQ n2) (sizeQ n1 * REQUIRED_OVERLAP).

Definition minOverlap (largerSize : nat) : Z :=
  Qceiling (sizeQ largerSize * REQUIRED_OVERLAP).

Definition maxFaults (smallerSize largerSize : nat) : Z :=
  Z.of_nat smallerSize - minOverlap largerSize.

(** [larger] and [smaller] of [canBeCombined], in this order; on a tie
    the second map is the larger one. *)
Definition orderBySize {V : Type} (p1 p2 : gmap string V)
    : gmap string V * gmap string V :=
  if (size p2 <? size p1)%nat then (p1, p2) else (p2, p1).

(** [OrderedSet.isEmpty]. *)
Definition isEmpty {A : Type} (s : list A) : bool :=
  match s with
  | [] => true
  | _ :: _ => false
  end.

Section CombineClasses.
Context `{M : TypeModel}.

Record Clique : Type := mkClique {
  members : list ClassType;
  prototypes : list ClassType
}.

(** [Map(s2.map(t => [t.kind, t]))]: the entries are set one after the
    other, so a later type replaces an earlier one of the same kind. *)
Definition indexByKind (s2 : list Ty) : gmap string Ty :=
  foldl (λ m t, <[kind t := t]> m) ∅ s2.

Definition typeSetsCanBeCombined (s1 s2 : list Ty) : bool :=
  if negb (length s1 =? length s2)%nat then false
  else
    let s2ByKind := indexByKind s2 in
    forallb (λ t,
      match s2ByKind !! kind t with
      | None => false
      | Some other => structurallyCompatible t other
      end) s1.

(** The callback of [smaller.forEach], run over the entries that are
    still to be visited.  Immutable's [forEach] stops as soon as the
    callback returns [false]. *)
Fixpoint forEachSmaller (larger : gmap string (ClassProperty Ty))
    (budget : Z) (entries : list (string * ClassProperty Ty))
    (commonProperties : list string) (faults : Z) : list string * Z :=
  match entries with
  | [] => (commonProperties, faults)
  | (name, _) :: rest =>
      match larger !! name with
      | Some _ =>
          forEachSmaller larger budget rest (commonProperties ++ [name]) faults
      | None =>
          let faults := faults + 1 in
          if budget <? faults then (commonProperties, faults)
          else forEachSmaller larger budget rest commonProperties faults
      end
  end.

(** The [for (const name of commonProperties)] loop. *)
Fixpoint compareCommon (smaller larger : gmap string (ClassProperty Ty))
    (commonProperties : list string) : result bool :=
  match commonProperties with
  | [] => Ok true
  | name :: rest =>
      match smaller !! name, larger !! name with
      | Some ts, Some tl =>
          let tsCases := nonNullTypeCases (type ts) in
          let tlCases := nonNullTypeCases (type tl) in
          if negb (isEmpty tsCases) && negb (isEmpty tlCases)
             && negb (typeSetsCanBeCombined tsCases tlCases)
          then Ok false
          else compareCommon smaller larger rest
      | _, _ => panic "Both of these should have this property"
      end
  end.

Definition canBeCombined (c1 c2 : ClassType) : result bool :=
  let p1 := properties c1 in
  let p2 := properties c2 in
  if sizeGate (size p1) (size p2) then Ok false
  else
    let '(larger, smaller) := orderBySize p1 p2 in
    let budget := maxFaults (size smaller) (size larger) in
    let* _ := assert (0 <=? budget) "Max faults negative" in
    let '(commonProperties, faults) :=
      forEachSmaller larger budget (map_to_list smaller) [] 0 in
    if budget <? faults then Ok false
    else compareCommon smaller larger commonProperties.

(** The second loop of [tryAddToClique]: is there a prototype that
    [canBeCombined] with [c]?  The loop returns at the first one. *)
Fixpoint someCanBeCombined (protos : list ClassType) (c : ClassType)
    : result bool :=
  match protos with
  | [] => Ok false
  | prototype :: rest =>
      let* combinable := canBeCombined prototype c in
      if combinable then Ok true else someCanBeCombined rest c
  end.

(** [tryAddToClique] mutates the clique it is given; here it returns
    the clique as it is after the call, next to its boolean result. *)
Definition tryAddToClique (c : ClassType) (clique : Clique)
    : result (bool * Clique) :=
  if existsb (λ prototype,
                structurallyCompatible (upcast prototype) (upcast c))
             (prototypes clique)
  then Ok (true, {| members := members clique ++ [c];
                    prototypes := prototypes clique |})
  else
    let* combinable := someCanBeCombined (prototypes clique) c in
    if combinable
    then Ok (true, {| members := members clique ++ [c];
                      prototypes := prototypes clique ++ [c] |})
    else Ok (false, clique).

(** The [for (let i = 1; ...)] loop over the candidates after the
    seed. *)
Fixpoint scanCandidates (candidates : list ClassType) (clique : Clique)
    (classesLeft : list ClassType) : result (Clique * list ClassType) :=
  match candidates with
  | [] => Ok (clique, classesLeft)
  | c :: rest =>
      let* outcome := tryAddToClique c clique in
      let '(added, clique) := outcome in
      if added : bool then scanCandidates rest clique classesLeft
      else scanCandidates rest clique (classesLeft ++ [c])
  end.

(** The [while (unprocessedClasses.length > 0)] loop.  [None] is the
    loop cut short after [fuel] rounds. *)
Fixpoint cliqueLoop (fuel : nat) (unprocessedClasses : list ClassType)
    (cliques : list (list ClassType))
    : option (result (list (list ClassType))) :=
  match unprocessedClasses with
  | [] => Some (Ok cliques)
  | seed :: others =>
      match fuel with
      | O => None
      | S fuel =>
          match scanCandidates others
                  {| members := [seed]; prototypes := [seed] |} [] with
          | Panic message => Some (Panic message)
          | Ok (clique, classesLeft) =>
              let cliques :=
                if (1 <? length (members clique))%nat
                then cliques ++ [members clique] else cliques in
              cliqueLoop fuel classesLeft cliques
          end
      end
  end.

(** The candidates of [findSimilarityCliques]. *)
Definition candidateClasses (graph : TypeGraph) (includeFixedClasses : bool)
    : list ClassType :=
  List.filter (λ c, includeFixedClasses || negb (isFixed c))
              (allNamedTypesSeparated_classes graph).

(** One round per candidate is enough fuel: every round removes at
    least its seed (see [cliqueLoop_enough_fuel]). *)
Definition findSimilarityCliques (graph : TypeGraph)
    (includeFixedClasses : bool) : option (result (list (list ClassType))) :=
  let unprocessedClasses := candidateClasses graph includeFixedClasses in
  cliqueLoop (length unprocessedClasses) unprocessedClasses [].

(** ** The orchestrator and its collaborators *)

Section Orchestrator.
Variables TypeAttributes TypeRef GraphRewriteBuilder : Type.
Variables UnionBuilder StringTypeMapping : Type.
Variable getAttributes : ClassType → TypeAttributes.
Variable combineTypeAttributes :
  list TypeAttributes → result TypeAttributes.
Variable unionBuilderForUnification :
  GraphRewriteBuilder → bool → bool → bool → UnionBuilder.
Variable unifyTypes :
  list ClassType → TypeAttributes → GraphRewriteBuilder → UnionBuilder →
  bool → TypeRef → result TypeRef.
Variable rewrite :
  TypeGraph → string → StringTypeMapping → bool → list (list ClassType) →
  (list ClassType → GraphRewriteBuilder → TypeRef → result TypeRef) →
  result TypeGraph.

Definition makeCliqueClass (conflateNumbers : bool)
    (clique : list ClassType) (builder : GraphRewriteBuilder)
    (forwardingRef : TypeRef) : result TypeRef :=
  let* _ := assert (0 <? length clique)%nat "Clique can't be empty" in
  let* attributes := combineTypeAttributes (map getAttributes clique) in
  unifyTypes clique attributes builder
    (unionBuilderForUnification builder false false conflateNumbers)
    conflateNumbers forwardingRef.

Definition combineClasses (graph : TypeGraph)
    (stringTypeMapping : StringTypeMapping)
    (alphabetizeProperties conflateNumbers : bool)
    : option (result TypeGraph) :=
  found ← findSimilarityCliques graph false;
  Some (let* cliques := found in
        rewrite graph "combine classes" stringTypeMapping
          alphabetizeProperties cliques (makeCliqueClass conflateNumbers)).
End Orchestrator.

End CombineClasses.

Arguments makeCliqueClass {M TypeAttributes TypeRef GraphRewriteBuilder
  UnionBuilder} getAttributes combineTypeAttributes
  unionBuilderForUnification unifyTypes conflateNumbers clique builder
  forwardingRef.
Arguments combineClasses {M TypeAttributes TypeRef GraphRewriteBuilder
  UnionBuilder StringTypeMapping} getAttributes combineTypeAttributes
  unionBuilderForUnification unifyTypes rewrite graph stringTypeMapping
  alphabetizeProperties conflateNumbers.

(** ** A concrete type model

    Class nodes, identified by a reference, whose properties are
    primitive types or unions of primitive types: enough to run the
    heuristics on examples.  The members of a union are listed without
    repetition. *)
Module Sample.

Inductive Primitive : Type :=
| AnyType | NullType | BoolType | IntegerType | DoubleType | StringType.

Inductive ValueType : Type :=
| Prim (p : Primitive)
| Union (unionMembers : list Primitive).

Record ClassNode : Type := mkClassNode {
  nodeRef : nat;
  nodeIsFixed : bool;
  nodeProperties : gmap string (ClassProperty ValueType)
}.

Inductive Node : Type :=
| ValueNode (v : ValueType)
| ClassNodeOf (c : ClassNode).

Definition primitiveKind (p : Primitive) : string :=
  match p with
  | AnyType => "any"
  | NullType => "null"
  | BoolType => "bool"
  | IntegerType => "integer"
  | DoubleType => "double"
  | StringType => "string"
  end.

Definition nodeKind (t : Node) : string :=
  match t with
  | ValueNode (Prim p) => primitiveKind p
  | ValueNode (Union _) => "union"
  | ClassNodeOf _ => "class"
  end.

Definition samePrimitive (p q : Primitive) : bool :=
  String.eqb (primitiveKind p) (primitiveKind q).

Definition isNull (p : Primitive) : bool := samePrimitive p NullType.

(** Modelled from the spec: [structurallyCompatible] is not among the
    sources; it is the exact shape equality of two types of one kind:
    the same primitive, unions with the same members, classes with the
    same property names, types and optionality. *)
Definition valueCompatible (v w : ValueType) : bool :=
  match v, w with
  | Prim p, Prim q => samePrimitive p q
  | Union ms, Union ns =>
      forallb (λ p, existsb (samePrimitive p) ns) ms
      && forallb (λ q, existsb (samePrimitive q) ms) ns
  | _, _ => false
  end.

Definition sameProperty (p q : ClassProperty ValueType) : bool :=
  valueCompatible (type p) (type q)
  && Bool.eqb (isOptional p) (isOptional q).

Definition classCompatible (c d : ClassNode) : bool :=
  (size (nodeProperties c) =? size (nodeProperties d))%nat
  && forallb (λ entry : string * ClassProperty ValueType,
                match nodeProperties d !! entry.1 with
                | Some q => sameProperty entry.2 q
                | None => false
                end)
             (map_to_list (nodeProperties c)).

Definition nodeCompatible (t u : Node) : bool :=
  match t, u with
  | ValueNode v, ValueNode w => valueCompatible v w
  | ClassNodeOf c, ClassNodeOf d => classCompatible c d
  | _, _ => false
  end.

(** Modelled from the spec: [nonNullTypeCases] is not among the
    sources; it strips [Null] from a (possibly union) type: nothing is
    left of the null type, the non-null members are left of a union, and
    any other type is its own single case. *)
Definition nodeNonNullTypeCases (t : Node) : list Node :=
  match t with
  | ValueNode (Prim p) => if isNull p then [] else [t]
  | ValueNode (Union ms) =>
      map (λ p, ValueNode (Prim p)) (List.filter (λ p, negb (isNull p)) ms)
  | ClassNodeOf _ => [t]
  end.

Definition nodePropertiesOf (c : ClassNode)
    : gmap string (ClassProperty Node) :=
  (λ p, mkClassProperty (ValueNode (type p)) (isOptional p))
    <$> nodeProperties c.

(** A graph is the sequence of its classes. *)
Definition model : TypeModel := {|
  Ty := Node;
  ClassType := ClassNode;
  TypeGraph := list ClassNode;
  upcast := ClassNodeOf;
  kind := nodeKind;
  structurallyCompatible := nodeCompatible;
  nonNullTypeCases := nodeNonNullTypeCases;
  properties := nodePropertiesOf;
  isFixed := nodeIsFixed;
  allNamedTypesSeparated_classes := λ graph, graph
|}.

(** A class from its reference, its fixedness and its required
    properties. *)
Definition classOf (ref : nat) (fixed : bool)
    (props : list (string * Primitive)) : @ClassType model :=
  mkClassNode ref fixed
    (list_to_map
       (map (λ entry : string * Primitive,
               (entry.1, mkClassProperty (Prim entry.2) false)) props)).

(** The types and classes of the examples. *)
Definition stringNode : @Ty model := ValueNode (Prim StringType).
Definition integerNode : @Ty model := ValueNode (Prim IntegerType).
Definition classAB : @ClassType model :=
  classOf 0 false [("a", StringType); ("b", IntegerType)].
Definition classABC : @ClassType model :=
  classOf 1 false [("a", StringType); ("b", IntegerType); ("c", StringType)].
Definition classABCD : @ClassType model :=
  classOf 2 false [("a", StringType); ("b", IntegerType); ("c", StringType);
                   ("d", BoolType)].
Definition classNull : @ClassType model :=
  classOf 3 false [("a", NullType)].
Definition classString : @ClassType model :=
  classOf 4 false [("a", StringType)].
Definition classInteger : @ClassType model :=
  classOf 5 false [("a", IntegerType)].
Definition classStringAgain : @ClassType model :=
  classOf 6 false [("a", StringType)].
Definition classStringFixed : @ClassType model :=
  classOf 7 true [("a", StringType)].

End Sample.


(** ** Vocabulary of the statements *)

Section Vocabulary.
Context `{M : TypeModel}.

(** An entry of [smaller] whose name [larger] does not have. *)
Definition isFault (larger : gmap string (ClassProperty Ty))
    (entry : string * ClassProperty Ty) : bool :=
  match larger !! entry.1 with
  | Some _ => false
  | None => true
  end.

(** The number of properties of [smaller] without a counterpart in
    [larger]. *)
Definition faultCount (smaller larger : gmap string (ClassProperty Ty)) : Z :=
  Z.of_nat (length (List.filter (isFault larger) (map_to_list smaller))).

(** The names of [smaller] that [larger] has too, in iteration order. *)
Definition commonNames (smaller larger : gmap string (ClassProperty Ty))
    : list string :=
  map fst (List.filter (λ entry, negb (isFault larger entry))
                       (map_to_list smaller)).

(** The comparison of one common property, read off the condition in
    the loop of [canBeCombined]. *)
Definition typeCasesAgree (ts tl : ClassProperty Ty) : bool :=
  isEmpty (nonNullTypeCases (type ts))
  || isEmpty (nonNullTypeCases (type tl))
  || typeSetsCanBeCombined (nonNullTypeCases (type ts))
                           (nonNullTypeCases (type tl)).

Definition agreeOn (smaller larger : gmap string (ClassProperty Ty))
    (name : string) : bool :=
  match smaller !! name, larger !! name with
  | Some ts, Some tl => typeCasesAgree ts tl
  | _, _ => true
  end.

(** The value of [canBeCombined] in closed form. *)
Definition combinable (c1 c2 : ClassType) : bool :=
  let '(larger, smaller) := orderBySize (properties c1) (properties c2) in
  negb (sizeGate (size (properties c1)) (size (properties c2)))
  && (faultCount smaller larger <=? maxFaults (size smaller) (size larger))
  && forallb (agreeOn smaller larger) (commonNames smaller larger).

(** The cliques that arise while one is built: the clique of a seed,
    and whatever a call of [tryAddToClique] leaves of such a clique. *)
Inductive underConstruction : Clique → Prop :=
| construction_seed (seed : ClassType) :
    underConstruction {| members := [seed]; prototypes := [seed] |}
| construction_try (c : ClassType) (clique clique' : Clique) (added : bool) :
    underConstruction clique →
    tryAddToClique c clique = Ok (added, clique') →
    underConstruction clique'.

(** No element occurs in two lists at different positions. *)
Definition pairwiseDisjoint {A : Type} (ls : list (list A)) : Prop :=
  ∀ i j li lj, i ≠ j → ls !! i = Some li → ls !! j = Some lj →
               ∀ x, x ∈ li → x ∉ lj.

End Vocabulary.

(** ** AccessorNames.ts

    Accessor names are read from plain JavaScript objects.  Reading a
    property of such an object yields its own value if it has one, else
    what [Object.prototype] provides under that name, else [undefined];
    [hasOwnProperty] only looks at the object's own properties. *)
Module AccessorNames.

Inductive JsValue : Type :=
| JsUndefined
| JsString (s : string)
| JsInherited (name : string).

Inductive AccessorEntry : Type :=
| EntryName (name : string)
| EntryPerLanguage (names : gmap string string).

Inductive AccessorNames : Type :=
| NamesObject (entries : gmap string AccessorEntry)
| NamesArray (entries : list AccessorEntry).

(** An enum type as [enumCaseNames] sees it: its cases in order, and its
    accessor-names attribute if it has one. *)
Record EnumType : Type := mkEnumType {
  cases : list string;
  accessorNamesAttribute : option AccessorNames
}.

Section Lookup.
(** The names that [Object.prototype] defines, and [JSON.stringify]. *)
Variable objectPrototypeHas : string → bool.
Variable stringify : AccessorNames → string.

(** [entry[name]] on an object whose own properties are strings. *)
Definition getProperty (entry : gmap string string) (name : string)
    : JsValue :=
  match entry !! name with
  | Some s => JsString s
  | None => if objectPrototypeHas name then JsInherited name else JsUndefined
  end.

Definition lookupKey (accessors : AccessorNames) (key language : string)
    : result JsValue :=
  match accessors with
  | NamesArray _ =>
      panic ("Accessors must be object, but is an array: "
             +:+ stringify accessors)
  | NamesObject entries =>
      match entries !! key with
      | None => Ok JsUndefined
      | Some (EntryName entry) => Ok (JsString entry)
      | Some (EntryPerLanguage entry) =>
          match getProperty entry language with
          | JsUndefined =>
              match getProperty entry "*" with
              | JsUndefined => Ok JsUndefined
              | maybeCatchAll => Ok maybeCatchAll
              end
          | maybeForLanguage => Ok maybeForLanguage
          end
      end
  end.

(** [map.map(f)] for an [f] that may throw: the entries are visited in
    the order of the map, and the first failure is the failure of the
    whole. *)
Fixpoint mapEntries (f : string → result JsValue)
    (entries : list (string * string)) : result (list (string * JsValue)) :=
  match entries with
  | [] => Ok []
  | (key, value) :: rest =>
      let* mapped := f value in
      let* others := mapEntries f rest in
      Ok ((key, mapped) :: others)
  end.

Definition enumCaseNames (e : EnumType) (language : string)
    : result (gmap string JsValue) :=
  let accessors := accessorNamesAttribute e in
  let map : gmap string string :=
    list_to_map ((λ c, (c, c)) <$> cases e) in
  match accessors with
  | None => Ok ((λ _, JsUndefined) <$> map)
  | Some accessors =>
      let* entries :=
        mapEntries (λ c, lookupKey accessors c language) (map_to_list map) in
      Ok (list_to_map entries)
  end.

End Lookup.

(** The names that the standard [Object.prototype] defines. *)
Definition standardPrototypeHas (name : string) : bool :=
  bool_decide (name ∈ ["constructor"; "hasOwnProperty"; "isPrototypeOf";
                        "propertyIsEnumerable"; "toLocaleString"; "toString";
                        "valueOf"; "__proto__"; "__defineGetter__";
                        "__defineSetter__"; "__lookupGetter__";
                        "__lookupSetter__"]).

End AccessorNames.

(** ** telemetry.ts

    The state of a run: the persistent store of [node-persist] and
    whether [storage.init()] has made it accessible, the number of
    identifiers that [uuid()] has produced, the hits sent to the analytics
    service, each with the visitor that sent it, and the [analytics] field
    of the [Telemetry] object.  The store holds strings; the empty string
    is the one falsy string.

    [storage.getItemSync] and [storage.setItemSync] exist only once
    [storage.init()] has run, and the only call of [storage.init()] is in
    [init()]; calling them before throws a [TypeError], whose message
    depends on the engine.  A method therefore returns or throws, and
    leaves a session behind in both cases. *)
Module Telemetry.

Inductive EventValue : Type :=
| ValueString (s : string)
| ValueNumber (n : Z).

Inductive Hit : Type :=
| HitPageview (page : string)
| HitTiming (category variable : string) (time : Z)
| HitEvent (category action : string) (label : option string)
           (value : option EventValue).

Inductive Analytics : Type :=
| NoAnalytics
| GoogleAnalytics (visitor : string).

Record Session : Type := mkSession {
  store : gmap string string;
  storageReady : bool;
  uuidsDrawn : nat;
  sent : list (string * Hit);
  analytics : Analytics
}.

Inductive Call : Type :=
| CallInit
| CallPageview (page : string)
| CallTiming (category variable : string) (time : Z)
| CallEvent (category action : string) (label : option string)
            (value : option EventValue)
| CallEnable
| CallDisable
| CallSetState (state : string).

(** A computation on the session that returns a value or throws. *)
Definition Op (A : Type) : Type := Session → result A * Session.

Definition ret {A : Type} (a : A) : Op A := λ s, (Ok a, s).

Definition throw {A : Type} (message : string) : Op A :=
  λ s, (Panic message, s).

Definition andThen {A B : Type} (m : Op A) (k : A → Op B) : Op B :=
  λ s, match m s with
       | (Ok a, s) => k a s
       | (Panic message, s) => (Panic message, s)
       end.

Notation "'let!' x ':=' m 'in' k" := (andThen m (λ x, k))
  (at level 10, x pattern, m at level 100, k at level 200).

(** [storage.init()]. *)
Definition storageInit : Op unit :=
  λ s, (Ok tt, {| store := store s; storageReady := true;
                  uuidsDrawn := uuidsDrawn s; sent := sent s;
                  analytics := analytics s |}).

(** [storage.getItemSync(name)]; a missing item is [undefined]. *)
Definition getItemSync (name : string) : Op (option string) :=
  λ s, if storageReady s then (Ok (store s !! name), s)
       else (Panic "TypeError", s).

(** [storage.setItemSync(name, val)]. *)
Definition setItemSync (name val : string) : Op unit :=
  λ s, if storageReady s
       then (Ok tt, {| store := <[name := val]> (store s);
                       storageReady := storageReady s;
                       uuidsDrawn := uuidsDrawn s; sent := sent s;
                       analytics := analytics s |})
       else (Panic "TypeError", s).

Section Run.
(** The identifiers that [uuid()] produces, one after the other. *)
Variable uuid : nat → string.

Definition drawUuid : Op string :=
  λ s, (Ok (uuid (uuidsDrawn s)),
        {| store := store s; storageReady := storageReady s;
           uuidsDrawn := S (uuidsDrawn s); sent := sent s;
           analytics := analytics s |}).

(** [Storage.get]: [storage.getItemSync(name) || def]. *)
Definition storageGet (name def : string) : Op string :=
  let! item := getItemSync name in
  ret (match item with
       | Some value => if String.eqb value "" then def else value
       | None => def
       end).

(** [Storage.set]. *)
Definition storageSet (name val : string) : Op unit := setItemSync name val.

(** [Storage.userId]: the default [uuid()] is evaluated before the
    store is read. *)
Definition userId : Op string :=
  let! def := drawUuid in
  storageGet "userId" def.

Definition analyticsState : Op string := storageGet "analyticsState" "none".

Definition setAnalyticsState (enabled : string) : Op unit :=
  storageSet "analyticsState" enabled.

Definition setAnalytics (a : Analytics) : Op unit :=
  λ s, (Ok tt, {| store := store s; storageReady := storageReady s;
                  uuidsDrawn := uuidsDrawn s; sent := sent s;
                  analytics := a |}).

(** [visitor.<hit>(...).send()]. *)
Definition send (visitor : string) (hit : Hit) : Op unit :=
  λ s, (Ok tt, {| store := store s; storageReady := storageReady s;
                  uuidsDrawn := uuidsDrawn s;
                  sent := sent s ++ [(visitor, hit)];
                  analytics := analytics s |}).

(** [new GoogleAnalytics()]. *)
Definition newGoogleAnalytics : Op Analytics :=
  let! id := userId in
  ret (GoogleAnalytics id).

Definition enable : Op unit :=
  let! _ := setAnalyticsState "enabled" in
  let! a := newGoogleAnalytics in
  setAnalytics a.

Definition disable : Op unit :=
  let! _ := setAnalyticsState "disabled" in
  setAnalytics NoAnalytics.

Definition init : Op unit :=
  let! _ := storageInit in
  let! state := analyticsState in
  if String.eqb state "enabled" then enable else ret tt.

Definition pageview (page : string) : Op unit :=
  λ s, match analytics s with
       | NoAnalytics => ret tt s
       | GoogleAnalytics visitor => send visitor (HitPageview page) s
       end.

Definition timing (category variable : string) (time : Z) : Op unit :=
  λ s, match analytics s with
       | NoAnalytics => ret tt s
       | GoogleAnalytics visitor =>
           send visitor (HitTiming category variable time) s
       end.

Definition event (category action : string) (label : option string)
    (value : option EventValue) : Op unit :=
  λ s, match analytics s with
       | NoAnalytics => ret tt s
       | GoogleAnalytics visitor =>
           match label with
           | Some label =>
               match value with
               | Some value =>
                   send visitor
                     (HitEvent category action (Some label) (Some value)) s
               | None =>
                   send visitor (HitEvent category action (Some label) None) s
               end
           | None => send visitor (HitEvent category action None None) s
           end
       end.

(** [get state] and [set state]. *)
Definition state : Op string := analyticsState.

Definition setState (value : string) : Op unit := setAnalyticsState value.

Definition call (c : Call) : Op unit :=
  match c with
  | CallInit => init
  | CallPageview page => pageview page
  | CallTiming category variable time => timing category variable time
  | CallEvent category action label value =>
      event category action label value
  | CallEnable => enable
  | CallDisable => disable
  | CallSetState value => setState value
  end.

(** A sequence of calls on the [Telemetry] object, first call first.  A
    call that throws leaves the session as it is at the throw, and the
    calls after it are made all the same, as when the caller catches. *)
Definition run (calls : list Call) (s : Session) : Session :=
  foldl (λ s c, (call c s).2) s calls.

End Run.

(** [new Telemetry()] in a process that has not initialised its storage,
    has drawn no identifier and has sent nothing yet. *)
Definition newTelemetry (stored : gmap string string) : Session :=
  {| store := stored; storageReady := false; uuidsDrawn := 0; sent := [];
     analytics := NoAnalytics |}.

(** The calls that ask for telemetry to be enabled. *)
Definition asksToEnable (c : Call) : bool :=
  match c with
  | CallEnable => true
  | CallSetState value => String.eqb value "enabled"
  | _ => false
  end.

End Telemetry.

(** ** The module-level telemetry

    The telemetry that keeps its analytics object in a variable of the
    module instead of a [Telemetry] object.  The variable is not
    initialised before [init()]; calling a method on [undefined] throws a
    [TypeError], whose message depends on the engine.  The storage is as
    above: accessible only once [storage.init()] has run, which [init()]
    does. *)
Module TelemetryModule.

Record Process : Type := mkProcess {
  store : gmap string string;
  storageReady : bool;
  uuidsDrawn : nat;
  sent : list (string * Telemetry.Hit);
  analytics : option Telemetry.Analytics
}.

(** A computation on the process that returns a value or throws. *)
Definition Op (A : Type) : Type := Process → result A * Process.

Definition ret {A : Type} (a : A) : Op A := λ p, (Ok a, p).

Definition andThen {A B : Type} (m : Op A) (k : A → Op B) : Op B :=
  λ p, match m p with
       | (Ok a, p) => k a p
       | (Panic message, p) => (Panic message, p)
       end.

Notation "'let!' x ':=' m 'in' k" := (andThen m (λ x, k))
  (at level 10, x pattern, m at level 100, k at level 200).

(** [storage.init()]. *)
Definition storageInit : Op unit :=
  λ p, (Ok tt, {| store := store p; storageReady := true;
                  uuidsDrawn := uuidsDrawn p; sent := sent p;
                  analytics := analytics p |}).

(** [storage.getItemSync(name)]; a missing item is [undefined]. *)
Definition getItemSync (name : string) : Op (option string) :=
  λ p, if storageReady p then (Ok (store p !! name), p)
       else (Panic "TypeError", p).

(** [storage.setItemSync(name, val)]. *)
Definition setItemSync (name val : string) : Op unit :=
  λ p, if storageReady p
       then (Ok tt, {| store := <[name := val]> (store p);
                       storageReady := storageReady p;
                       uuidsDrawn := uuidsDrawn p; sent := sent p;
                       analytics := analytics p |})
       else (Panic "TypeError", p).

Section Run.
Variable uuid : nat → string.

Definition drawUuid : Op string :=
  λ p, (Ok (uuid (uuidsDrawn p)),
        {| store := store p; storageReady := storageReady p;
           uuidsDrawn := S (uuidsDrawn p); sent := sent p;
           analytics := analytics p |}).

(** [Storage.get]: [storage.getItemSync(name) || def]. *)
Definition storageGet (name def : string) : Op string :=
  let! item := getItemSync name in
  ret (match item with
       | Some value => if String.eqb value "" then def else value
       | None => def
       end).

(** [Storage.set]. *)
Definition storageSet (name val : string) : Op unit := setItemSync name val.

(** [Storage.userId]. *)
Definition userId : Op string :=
  let! def := drawUuid in
  storageGet "userId" def.

Definition analyticsState : Op string := storageGet "analyticsState" "none".

Definition setAnalytics (a : Telemetry.Analytics) : Op unit :=
  λ p, (Ok tt, {| store := store p; storageReady := storageReady p;
                  uuidsDrawn := uuidsDrawn p; sent := sent p;
                  analytics := Some a |}).

Definition init : Op string :=
  let! _ := storageInit in
  let! state := analyticsState in
  let! a :=
    if String.eqb state "enabled"
    then let! id := userId in ret (Telemetry.GoogleAnalytics id)
    else ret Telemetry.NoAnalytics in
  let! _ := setAnalytics a in
  ret state.

Definition pageview (page : string) : Op unit :=
  λ p, match analytics p with
       | None => (Panic "TypeError", p)
       | Some Telemetry.NoAnalytics => (Ok tt, p)
       | Some (Telemetry.GoogleAnalytics visitor) =>
           (Ok tt,
            {| store := store p; storageReady := storageReady p;
               uuidsDrawn := uuidsDrawn p;
               sent := sent p ++ [(visitor, Telemetry.HitPageview page)];
               analytics := analytics p |})
       end.

Definition setState (state : string) : Op unit :=
  storageSet "analyticsState" state.

End Run.

End TelemetryModule.

(** * Properties *)

(** ** The size-ratio gate and the fault budget *)

Lemma Qlt_bool_iff (x y : Q) : Qlt_bool x y = true ↔ (x < y)%Q.
Proof.
  unfold Qlt_bool. rewrite negb_true_iff, <- not_true_iff_false, Qle_bool_iff.
  split; [apply Qnot_le_lt | apply Qlt_not_le].
Qed.

Lemma sizeQ_overlap_lt (n m : nat) :
  (sizeQ n < sizeQ m * REQUIRED_OVERLAP)%Q ↔ 4 * Z.of_nat n < 3 * Z.of_nat m.
Proof.
  unfold sizeQ, REQUIRED_OVERLAP, Qlt, Qmult, inject_Z. simpl. lia.
Qed.

Lemma sizeGate_true (n1 n2 : nat) :
  sizeGate n1 n2 = true ↔
  4 * Z.of_nat n1 < 3 * Z.of_nat n2 ∨ 4 * Z.of_nat n2 < 3 * Z.of_nat n1.
Proof.
  unfold sizeGate. rewrite orb_true_iff, !Qlt_bool_iff, !sizeQ_overlap_lt.
  reflexivity.
Qed.

Lemma sizeGate_false (n1 n2 : nat) :
  sizeGate n1 n2 = false ↔
  3 * Z.of_nat n2 ≤ 4 * Z.of_nat n1 ∧ 3 * Z.of_nat n1 ≤ 4 * Z.of_nat n2.
Proof.
  rewrite <- not_true_iff_false, sizeGate_true. lia.
Qed.

Lemma minOverlap_le (n m : nat) :
  3 * Z.of_nat m ≤ 4 * Z.of_nat n → minOverlap m ≤ Z.of_nat n.
Proof.
  intros Hle. unfold minOverlap.
  rewrite <- (Qceiling_Z (Z.of_nat n)). apply Qceiling_resp_le.
  fold (sizeQ n). apply Qnot_lt_le. rewrite sizeQ_overlap_lt. lia.
Qed.

Lemma orderBySize_cases {V : Type} (p1 p2 : gmap string V) :
  (orderBySize p1 p2 = (p1, p2) ∧ (size p2 < size p1)%nat)
  ∨ (orderBySize p1 p2 = (p2, p1) ∧ (size p1 ≤ size p2)%nat).
Proof.
  unfold orderBySize. destruct (Nat.ltb_spec (size p2) (size p1)); auto.
Qed.

Lemma maxFaults_nonneg_ordered {V : Type} (p1 p2 : gmap string V) :
  sizeGate (size p1) (size p2) = false →
  0 ≤ maxFaults (size (orderBySize p1 p2).2) (size (orderBySize p1 p2).1).
Proof.
  rewrite sizeGate_false. intros [H1 H2]. unfold maxFaults.
  destruct (orderBySize_cases p1 p2) as [[-> _]|[-> _]]; simpl.
  - pose proof (minOverlap_le (size p2) (size p1) H2). lia.
  - pose proof (minOverlap_le (size p1) (size p2) H1). lia.
Qed.

(** ** [canBeCombined] in closed form *)

Section CanBeCombined.
Context `{M : TypeModel}.
Implicit Types smaller larger : gmap string (ClassProperty Ty).
Implicit Types entries : list (string * ClassProperty Ty).

Lemma forEachSmaller_within larger budget entries common faults :
  faults + Z.of_nat (length (List.filter (isFault larger) entries)) ≤ budget →
  forEachSmaller larger budget entries common faults =
    (common ++ map fst (List.filter (λ e, negb (isFault larger e)) entries),
     faults + Z.of_nat (length (List.filter (isFault larger) entries))).
Proof.
  revert common faults.
  induction entries as [|[name p] rest IH]; intros common faults Hle; simpl.
  - by rewrite app_nil_r, Z.add_0_r.
  - pose proof (eq_refl : isFault larger (name, p) =
      match larger !! name with Some _ => false | None => true end) as Hf.
    destruct (larger !! name) as [q|] eqn:Hq; simpl in *; rewrite Hf in *;
      simpl in *.
    + rewrite IH by done. by rewrite <- app_assoc.
    + destruct (Z.ltb_spec budget (faults + 1)) as [Hlt|_]; [lia|].
      rewrite IH by lia. f_equal. lia.
Qed.

Lemma forEachSmaller_exceeds larger budget entries common faults :
  faults ≤ budget →
  budget < faults + Z.of_nat (length (List.filter (isFault larger) entries)) →
  budget < (forEachSmaller larger budget entries common faults).2.
Proof.
  revert common faults.
  induction entries as [|[name p] rest IH]; intros common faults Hle Hlt;
    simpl in *.
  - lia.
  - pose proof (eq_refl : isFault larger (name, p) =
      match larger !! name with Some _ => false | None => true end) as Hf.
    destruct (larger !! name) as [q|] eqn:Hq; simpl in *; rewrite Hf in *;
      simpl in *.
    + by apply IH.
    + destruct (Z.ltb_spec budget (faults + 1)) as [Hgt|Hok]; simpl; [lia|].
      apply IH; lia.
Qed.

Lemma compareCommon_total smaller larger (names : list string) :
  (∀ name, name ∈ names →
     is_Some (smaller !! name) ∧ is_Some (larger !! name)) →
  compareCommon smaller larger names =
    Ok (forallb (agreeOn smaller larger) names).
Proof.
  induction names as [|name rest IH]; intros Hboth; simpl; [done|].
  destruct (Hboth name) as [[ts Hts] [tl Htl]]; [left|].
  unfold agreeOn at 1. rewrite Hts, Htl. unfold typeCasesAgree.
  destruct (isEmpty (nonNullTypeCases (type ts))),
           (isEmpty (nonNullTypeCases (type tl))),
           (typeSetsCanBeCombined _ _); simpl; try done;
    apply IH; intros n Hn; apply Hboth; by right.
Qed.

Lemma elem_of_commonNames smaller larger (name : string) :
  name ∈ commonNames smaller larger ↔
  is_Some (smaller !! name) ∧ is_Some (larger !! name).
Proof.
  unfold commonNames. rewrite list_elem_of_fmap. split.
  - intros [[n p] [-> Hin]]. apply list_elem_of_In, filter_In in Hin.
    destruct Hin as [Hin Hnf]. apply list_elem_of_In, elem_of_map_to_list in Hin.
    unfold isFault in Hnf. simpl in *. split; [by eexists|].
    by destruct (larger !! n).
  - intros [[p Hp] [q Hq]]. exists (name, p). split; [done|].
    apply list_elem_of_In, filter_In. split.
    + by apply list_elem_of_In, elem_of_map_to_list.
    + unfold isFault. simpl. by rewrite Hq.
Qed.

(** [canBeCombined] never throws: neither assertion nor lookup fails,
    and its value is [combinable]. *)
Lemma canBeCombined_total (c1 c2 : ClassType) :
  canBeCombined c1 c2 = Ok (combinable c1 c2).
Proof.
  unfold canBeCombined, combinable.
  destruct (sizeGate _ _) eqn:Hgate; [by destruct (orderBySize _ _)|].
  pose proof (maxFaults_nonneg_ordered _ _ Hgate) as Hnonneg.
  destruct (orderBySize (properties c1) (properties c2)) as [larger smaller].
  simpl in *. unfold assert.
  destruct (Z.leb_spec 0 (maxFaults (size smaller) (size larger)));
    [simpl|lia].
  destruct (Z.leb_spec (faultCount smaller larger)
              (maxFaults (size smaller) (size larger))) as [Hin|Hout].
  - unfold faultCount in Hin.
    rewrite forEachSmaller_within by (simpl; lia). simpl.
    destruct (Z.ltb_spec (maxFaults (size smaller) (size larger))
      (0 + Z.of_nat (length (List.filter (isFault larger)
                               (map_to_list smaller))))); [lia|].
    apply compareCommon_total. intros name. apply elem_of_commonNames.
  - pose proof (forEachSmaller_exceeds larger _ (map_to_list smaller) [] 0
                  ltac:(done) ltac:(unfold faultCount in Hout; lia)) as Hex.
    destruct (forEachSmaller _ _ _ _ _) as [common faults]. simpl in *.
    destruct (Z.ltb_spec (maxFaults (size smaller) (size larger)) faults);
      [done|lia].
Qed.

End CanBeCombined.

(** ** Claims on [canBeCombined] *)

Section CanBeCombinedClaims.
Context `{M : TypeModel}.

(** C1 (as amended).  For classes that pass the size-ratio gate and
    the fault budget: a common property whose non-null type-case sets
    are non-empty on both sides and not combinable makes
    [canBeCombined] return false; and [canBeCombined] returns true
    exactly when every such both-sides-non-empty common property is
    combinable, so a property whose set is empty on at least one side
    is not compared. *)
Theorem canBeCombined_common_property_conflict (c1 c2 : ClassType)
    (larger smaller : gmap string (ClassProperty Ty)) :
  orderBySize (properties c1) (properties c2) = (larger, smaller) →
  sizeGate (size (properties c1)) (size (properties c2)) = false →
  faultCount smaller larger ≤ maxFaults (size smaller) (size larger) →
  (∀ name ts tl,
     smaller !! name = Some ts → larger !! name = Some tl →
     nonNullTypeCases (type ts) ≠ [] → nonNullTypeCases (type tl) ≠ [] →
     typeSetsCanBeCombined (nonNullTypeCases (type ts))
                           (nonNullTypeCases (type tl)) = false →
     canBeCombined c1 c2 = Ok false)
  ∧ (canBeCombined c1 c2 = Ok true ↔
     ∀ name ts tl,
       smaller !! name = Some ts → larger !! name = Some tl →
       nonNullTypeCases (type ts) ≠ [] → nonNullTypeCases (type tl) ≠ [] →
       typeSetsCanBeCombined (nonNullTypeCases (type ts))
                             (nonNullTypeCases (type tl)) = true).
Proof.
  intros Horder Hgate Hbudget.
  assert (Hall : combinable c1 c2 = true ↔
    ∀ name ts tl,
      smaller !! name = Some ts → larger !! name = Some tl →
      nonNullTypeCases (type ts) ≠ [] → nonNullTypeCases (type tl) ≠ [] →
      typeSetsCanBeCombined (nonNullTypeCases (type ts))
                            (nonNullTypeCases (type tl)) = true).
  { unfold combinable. rewrite Horder, Hgate. simpl.
    destruct (Z.leb_spec (faultCount smaller larger)
                (maxFaults (size smaller) (size larger))); [simpl|lia].
    rewrite forallb_forall. split.
    - intros Hagree name ts tl Hts Htl Hnes Hnel.
      assert (Hin : name ∈ commonNames smaller larger)
        by (apply elem_of_commonNames; eauto).
      apply list_elem_of_In, Hagree in Hin.
      unfold agreeOn in Hin. rewrite Hts, Htl in Hin.
      unfold typeCasesAgree in Hin.
      destruct (nonNullTypeCases (type ts)), (nonNullTypeCases (type tl));
        simpl in *; done.
    - intros Hcmp name Hin.
      apply list_elem_of_In, elem_of_commonNames in Hin.
      destruct Hin as [[ts Hts] [tl Htl]].
      unfold agreeOn. rewrite Hts, Htl. unfold typeCasesAgree.
      specialize (Hcmp name ts tl Hts Htl).
      destruct (nonNullTypeCases (type ts)) eqn:Es; [done|].
      destruct (nonNullTypeCases (type tl)) eqn:El; [done|].
      simpl. by apply Hcmp. }
  rewrite canBeCombined_total. split.
  - intros name ts tl Hts Htl Hnes Hnel Hfalse. f_equal.
    apply not_true_is_false. intros Htrue.
    rewrite (proj1 Hall Htrue name ts tl Hts Htl Hnes Hnel) in Hfalse.
    discriminate.
  - rewrite <- Hall. split; [by intros [= ->]|by intros ->].
Qed.

(** C3.  For classes that pass the size-ratio gate, the fault budget
    [maxFaults = smaller.size - ceil(larger.size * 0.75)] is at least
    zero, so the assertion "Max faults negative" succeeds and
    [canBeCombined] does not throw it. *)
Theorem maxFaults_nonnegative (c1 c2 : ClassType)
    (larger smaller : gmap string (ClassProperty Ty)) :
  orderBySize (properties c1) (properties c2) = (larger, smaller) →
  sizeGate (size (properties c1)) (size (properties c2)) = false →
  0 ≤ maxFaults (size smaller) (size larger)
  ∧ assert (0 <=? maxFaults (size smaller) (size larger))
           "Max faults negative" = Ok tt
  ∧ canBeCombined c1 c2 ≠ Panic "Max faults negative".
Proof.
  intros Horder Hgate.
  pose proof (maxFaults_nonneg_ordered _ _ Hgate) as Hnonneg.
  rewrite Horder in Hnonneg. simpl in Hnonneg.
  split; [done|]. split.
  - unfold assert. by destruct (Z.leb_spec 0 (maxFaults (size smaller)
                                                (size larger))); [|lia].
  - by rewrite canBeCombined_total.
Qed.

End CanBeCombinedClaims.

(** C2.  [canBeCombined] returns false whenever one property count is
    strictly less than 0.75 times the other, whatever the properties
    are; in particular for [{a: String, b: Integer}] against
    [{a: String, b: Integer, c: String}]. *)
Theorem canBeCombined_size_gate :
  (∀ (M : TypeModel) (c1 c2 : ClassType),
     (sizeQ (size (properties c1))
        < sizeQ (size (properties c2)) * REQUIRED_OVERLAP)%Q
     ∨ (sizeQ (size (properties c2))
          < sizeQ (size (properties c1)) * REQUIRED_OVERLAP)%Q →
     canBeCombined c1 c2 = Ok false)
  ∧ canBeCombined (M := Sample.model) Sample.classAB Sample.classABC = Ok false
  ∧ canBeCombined (M := Sample.model) Sample.classABC Sample.classAB = Ok false.
Proof.
  assert (Hgen : ∀ (M : TypeModel) (c1 c2 : ClassType),
     (sizeQ (size (properties c1))
        < sizeQ (size (properties c2)) * REQUIRED_OVERLAP)%Q
     ∨ (sizeQ (size (properties c2))
          < sizeQ (size (properties c1)) * REQUIRED_OVERLAP)%Q →
     canBeCombined c1 c2 = Ok false).
  { intros M c1 c2 Hlt. unfold canBeCombined.
    assert (sizeGate (size (properties c1)) (size (properties c2)) = true)
      as -> ; [|done].
    unfold sizeGate. rewrite orb_true_iff, !Qlt_bool_iff. exact Hlt. }
  split; [exact Hgen|]. split; apply Hgen; [left|right]; by vm_compute.
Qed.

(** ** Claims on [typeSetsCanBeCombined] *)

Section TypeSets.
Context `{M : TypeModel}.
Implicit Types s : list Ty.

Lemma indexByKind_snoc s (t : Ty) :
  indexByKind (s ++ [t]) = <[kind t := t]> (indexByKind s).
Proof. unfold indexByKind. by rewrite foldl_snoc. Qed.

Lemma indexByKind_lookup_Some s (k : string) (other : Ty) :
  indexByKind s !! k = Some other → other ∈ s ∧ kind other = k.
Proof.
  induction s as [|t s IH] using rev_ind.
  - unfold indexByKind. simpl. by rewrite lookup_empty.
  - rewrite indexByKind_snoc. destruct (decide (kind t = k)) as [<-|Hne].
    + rewrite lookup_insert_eq. intros [= ->].
      split; [|done]. apply elem_of_app. right. by left.
    + rewrite lookup_insert_ne by done. intros Hs.
      destruct (IH Hs). split; [|done]. apply elem_of_app. by left.
Qed.

Lemma indexByKind_lookup_None s (k : string) :
  indexByKind s !! k = None ↔ ∀ t, t ∈ s → kind t ≠ k.
Proof.
  induction s as [|t s IH] using rev_ind.
  - unfold indexByKind. simpl. rewrite lookup_empty.
    split; [|done]. intros _ t Hin. by apply elem_of_nil in Hin.
  - rewrite indexByKind_snoc. destruct (decide (kind t = k)) as [<-|Hne].
    + rewrite lookup_insert_eq. split; [done|].
      intros Hall. destruct (Hall t); [|done].
      apply elem_of_app. right. by left.
    + rewrite lookup_insert_ne, IH by done. split.
      * intros Hall u Hin. apply elem_of_app in Hin as [Hin|Hin]; [by apply Hall|].
        by apply list_elem_of_singleton in Hin as ->.
      * intros Hall u Hin. apply Hall, elem_of_app. by left.
Qed.

Lemma indexByKind_lookup_NoDup s (t : Ty) :
  NoDup (kind <$> s) → t ∈ s → indexByKind s !! kind t = Some t.
Proof.
  induction s as [|u s IH] using rev_ind;
    [intros _ Hin; by apply elem_of_nil in Hin|].
  rewrite fmap_app, NoDup_app, indexByKind_snoc. simpl.
  intros (Hnd & Hfresh & _) Hin.
  apply elem_of_app in Hin as [Hin|Hin].
  - rewrite lookup_insert_ne; [by apply IH|].
    intros Heq. apply (Hfresh (kind t)).
    + by apply list_elem_of_fmap_2.
    + rewrite Heq. by left.
  - apply list_elem_of_singleton in Hin as ->. by rewrite lookup_insert_eq.
Qed.

Lemma typeSetsCanBeCombined_same_size s1 s2 :
  length s1 = length s2 →
  typeSetsCanBeCombined s1 s2 = true ↔
  ∀ t, t ∈ s1 →
    ∃ other, indexByKind s2 !! kind t = Some other
             ∧ structurallyCompatible t other = true.
Proof.
  intros Hlen. unfold typeSetsCanBeCombined.
  rewrite Hlen, Nat.eqb_refl. simpl. rewrite forallb_forall. split.
  - intros Hall t Hin. apply list_elem_of_In, Hall in Hin.
    destruct (indexByKind s2 !! kind t) as [other|]; [eauto|done].
  - intros Hall t Hin. apply list_elem_of_In, Hall in Hin.
    destruct Hin as (other & -> & Hcompat). done.
Qed.

Lemma typeSetsCanBeCombined_distinct_kinds s1 s2 :
  NoDup (kind <$> s2) → length s1 = length s2 →
  typeSetsCanBeCombined s1 s2 = true ↔
  ∀ t, t ∈ s1 →
    ∃ other, other ∈ s2 ∧ kind other = kind t
             ∧ structurallyCompatible t other = true.
Proof.
  intros Hnd Hlen. rewrite typeSetsCanBeCombined_same_size by done.
  split; intros Hall t Hin; destruct (Hall t Hin) as (other & H1 & H2).
  - apply indexByKind_lookup_Some in H1 as [? ?]. eauto.
  - destruct H2 as [Hk Hc]. exists other. split; [|done].
    rewrite <- Hk. by apply indexByKind_lookup_NoDup.
Qed.

(** C6.  [typeSetsCanBeCombined] is false for sets of different sizes.
    For sets of the same size it is true exactly when every type of
    [s1] finds, in [s2] indexed by kind, a counterpart that is
    [structurallyCompatible] with it.  The counterpart found under a
    kind is a member of [s2] of that kind, and none is found when [s2]
    has no member of that kind, so types of different kinds are never
    matched.  When the kinds in [s2] are distinct, the index finds
    every member of [s2] under its kind. *)
Theorem typeSetsCanBeCombined_spec s1 s2 :
  (length s1 ≠ length s2 → typeSetsCanBeCombined s1 s2 = false)
  ∧ (length s1 = length s2 →
     (typeSetsCanBeCombined s1 s2 = true ↔
      ∀ t, t ∈ s1 →
        ∃ other, indexByKind s2 !! kind t = Some other
                 ∧ structurallyCompatible t other = true))
  ∧ (∀ k other,
       indexByKind s2 !! k = Some other → other ∈ s2 ∧ kind other = k)
  ∧ (∀ k, (∀ other, other ∈ s2 → kind other ≠ k) →
          indexByKind s2 !! k = None)
  ∧ (NoDup (kind <$> s2) → length s1 = length s2 →
     (typeSetsCanBeCombined s1 s2 = true ↔
      ∀ t, t ∈ s1 →
        ∃ other, other ∈ s2 ∧ kind other = kind t
                 ∧ structurallyCompatible t other = true)).
Proof.
  split; [|split; [|split; [|split]]].
  - intros Hne. unfold typeSetsCanBeCombined.
    by destruct (Nat.eqb_spec (length s1) (length s2)).
  - apply typeSetsCanBeCombined_same_size.
  - apply indexByKind_lookup_Some.
  - intros k. apply indexByKind_lookup_None.
  - apply typeSetsCanBeCombined_distinct_kinds.
Qed.

End TypeSets.

(** ** Symmetry of [canBeCombined]

    The two argument orders differ only on a tie of the property
    counts, where [smaller] and [larger] change places.  The fault count
    is then the same, and the comparison of the common properties is the
    same as soon as [structurallyCompatible] is symmetric and no type-case
    set holds two types of one kind. *)

Section Symmetry.
Context `{M : TypeModel}.
Hypothesis compatible_sym :
  ∀ t u : Ty, structurallyCompatible t u = structurallyCompatible u t.
Hypothesis cases_distinct_kinds :
  ∀ t : Ty, NoDup (kind <$> nonNullTypeCases t).

Lemma fmap_NoDup_inj {A B : Type} (f : A → B) (l : list A) (x y : A) :
  NoDup (f <$> l) → x ∈ l → y ∈ l → f x = f y → x = y.
Proof.
  induction l as [|a l IH]; simpl; [by intros _ Hx; apply elem_of_nil in Hx|].
  rewrite NoDup_cons. intros [Hfresh Hnd] Hx Hy Hf.
  apply elem_of_cons in Hx as [->|Hx], Hy as [->|Hy]; [done|..].
  - destruct Hfresh. rewrite Hf. by apply list_elem_of_fmap_2.
  - destruct Hfresh. rewrite <- Hf. by apply list_elem_of_fmap_2.
  - by apply IH.
Qed.

Lemma counterparts_swap (s1 s2 : list Ty) :
  NoDup (kind <$> s1) → NoDup (kind <$> s2) → length s1 = length s2 →
  (∀ t, t ∈ s1 → ∃ u, u ∈ s2 ∧ kind u = kind t
                       ∧ structurallyCompatible t u = true) →
  ∀ u, u ∈ s2 → ∃ t, t ∈ s1 ∧ kind t = kind u
                      ∧ structurallyCompatible u t = true.
Proof.
  intros Hnd1 Hnd2 Hlen Hall u Hu.
  assert (kind <$> s1 ≡ₚ kind <$> s2) as Hperm.
  { apply submseteq_length_Permutation.
    - apply NoDup_submseteq; [done|]. intros k Hk.
      apply list_elem_of_fmap in Hk as (t & -> & Ht).
      destruct (Hall t Ht) as (u' & Hu' & <- & _).
      by apply list_elem_of_fmap_2.
    - rewrite !length_fmap. lia. }
  assert (kind u ∈ kind <$> s1) as Hk
    by (rewrite Hperm; by apply list_elem_of_fmap_2).
  apply list_elem_of_fmap in Hk as (t & Hkt & Ht).
  destruct (Hall t Ht) as (u' & Hu' & Hk' & Hc).
  assert (u' = u) as ->
    by (eapply fmap_NoDup_inj; [exact Hnd2|done..|congruence]).
  exists t. by rewrite compatible_sym.
Qed.

Lemma typeSetsCanBeCombined_sym (s1 s2 : list Ty) :
  NoDup (kind <$> s1) → NoDup (kind <$> s2) →
  typeSetsCanBeCombined s1 s2 = typeSetsCanBeCombined s2 s1.
Proof.
  intros Hnd1 Hnd2. destruct (decide (length s1 = length s2)) as [Hlen|Hne].
  - apply eq_true_iff_eq.
    rewrite !typeSetsCanBeCombined_distinct_kinds by done.
    split; by apply counterparts_swap.
  - unfold typeSetsCanBeCombined.
    destruct (Nat.eqb_spec (length s1) (length s2)); [done|].
    by destruct (Nat.eqb_spec (length s2) (length s1)).
Qed.

Lemma typeCasesAgree_sym (ts tl : ClassProperty Ty) :
  typeCasesAgree ts tl = typeCasesAgree tl ts.
Proof.
  unfold typeCasesAgree.
  rewrite (typeSetsCanBeCombined_sym _ _ (cases_distinct_kinds (type ts))
             (cases_distinct_kinds (type tl))).
  by destruct (isEmpty _), (isEmpty _).
Qed.

Lemma agreeOn_sym (p1 p2 : gmap string (ClassProperty Ty)) (name : string) :
  agreeOn p1 p2 name = agreeOn p2 p1 name.
Proof.
  unfold agreeOn. destruct (p1 !! name), (p2 !! name); try done.
  apply typeCasesAgree_sym.
Qed.

Lemma List_filter_sublist {A : Type} (f : A → bool) (l : list A) :
  sublist (List.filter f l) l.
Proof.
  induction l as [|a l IH]; simpl; [constructor|].
  destruct (f a); by constructor.
Qed.

Lemma commonNames_NoDup (p1 p2 : gmap string (ClassProperty Ty)) :
  NoDup (commonNames p1 p2).
Proof.
  unfold commonNames.
  apply (sublist_NoDup _ ((map_to_list p1).*1));
    [apply NoDup_fst_map_to_list
    |apply (fmap_sublist fst), List_filter_sublist].
Qed.

Lemma commonNames_swap (p1 p2 : gmap string (ClassProperty Ty)) :
  commonNames p1 p2 ≡ₚ commonNames p2 p1.
Proof.
  apply NoDup_Permutation; [apply commonNames_NoDup..|].
  intros name. rewrite !elem_of_commonNames. tauto.
Qed.

Lemma faultCount_common (smaller larger : gmap string (ClassProperty Ty)) :
  faultCount smaller larger =
    Z.of_nat (size smaller) - Z.of_nat (length (commonNames smaller larger)).
Proof.
  unfold faultCount, commonNames. rewrite length_map.
  pose proof (filter_length (isFault larger) (map_to_list smaller)) as Hsum.
  rewrite length_map_to_list in Hsum. lia.
Qed.

Lemma combinable_sym (c1 c2 : ClassType) : combinable c1 c2 = combinable c2 c1.
Proof.
  unfold combinable.
  assert (sizeGate (size (properties c2)) (size (properties c1))
          = sizeGate (size (properties c1)) (size (properties c2))) as ->
    by apply orb_comm.
  destruct (orderBySize_cases (properties c1) (properties c2))
    as [[-> H1]|[-> H1]],
    (orderBySize_cases (properties c2) (properties c1))
    as [[-> H2]|[-> H2]];
    try done; try lia.
  assert (size (properties c1) = size (properties c2)) as Hsize by lia.
  rewrite !faultCount_common, Hsize,
    (Permutation_length (commonNames_swap (properties c1) (properties c2))).
  f_equal. apply eq_true_iff_eq. rewrite !forallb_forall.
  split; intros Hall name Hin; rewrite agreeOn_sym; apply Hall;
    apply list_elem_of_In; apply list_elem_of_In in Hin;
    by rewrite commonNames_swap.
Qed.

(** Under the two assumptions of this section [canBeCombined] does not
    depend on the order of its arguments. *)
Lemma canBeCombined_sym (c1 c2 : ClassType) :
  canBeCombined c1 c2 = canBeCombined c2 c1.
Proof. by rewrite !canBeCombined_total, combinable_sym. Qed.

End Symmetry.

(** ** Claims on [tryAddToClique] *)

Section TryAddToClique.
Context `{M : TypeModel}.

Lemma someCanBeCombined_total (protos : list ClassType) (c : ClassType) :
  someCanBeCombined protos c = Ok (existsb (λ p, combinable p c) protos).
Proof.
  induction protos as [|p rest IH]; simpl; [done|].
  rewrite canBeCombined_total. simpl. by destruct (combinable p c).
Qed.

Lemma tryAddToClique_total (c : ClassType) (clique : Clique) :
  tryAddToClique c clique =
    Ok (if existsb (λ p, structurallyCompatible (upcast p) (upcast c))
                   (prototypes clique)
        then (true, {| members := members clique ++ [c];
                       prototypes := prototypes clique |})
        else if existsb (λ p, combinable p c) (prototypes clique)
        then (true, {| members := members clique ++ [c];
                       prototypes := prototypes clique ++ [c] |})
        else (false, clique)).
Proof.
  unfold tryAddToClique. destruct (existsb _ (prototypes clique)); [done|].
  rewrite someCanBeCombined_total. simpl.
  by destruct (existsb _ (prototypes clique)).
Qed.

Lemma existsb_false_iff {A : Type} (f : A → bool) (l : list A) :
  existsb f l = false ↔ ∀ x, x ∈ l → f x = false.
Proof.
  rewrite <- not_true_iff_false, existsb_exists. split.
  - intros Hno x Hin. apply not_true_is_false. intros Hx.
    apply Hno. exists x. by rewrite <- list_elem_of_In.
  - intros Hall (x & Hin & Hx). apply list_elem_of_In, Hall in Hin. congruence.
Qed.

(** C4.  If some current prototype is structurally compatible with
    [c], then [c] is appended to the members only.  Otherwise, if
    [canBeCombined] holds between some current prototype and [c], then
    [c] is appended to both the prototypes and the members.  Otherwise
    the clique is left as it is and the result is false. *)
Theorem tryAddToClique_spec (c : ClassType) (clique : Clique) :
  ((∃ p, p ∈ prototypes clique
         ∧ structurallyCompatible (upcast p) (upcast c) = true) →
   tryAddToClique c clique =
     Ok (true, {| members := members clique ++ [c];
                  prototypes := prototypes clique |}))
  ∧ ((∀ p, p ∈ prototypes clique →
           structurallyCompatible (upcast p) (upcast c) = false) →
     (∃ p, p ∈ prototypes clique ∧ canBeCombined p c = Ok true) →
     tryAddToClique c clique =
       Ok (true, {| members := members clique ++ [c];
                    prototypes := prototypes clique ++ [c] |}))
  ∧ ((∀ p, p ∈ prototypes clique →
           structurallyCompatible (upcast p) (upcast c) = false) →
     (∀ p, p ∈ prototypes clique → canBeCombined p c ≠ Ok true) →
     tryAddToClique c clique = Ok (false, clique)).
Proof.
  rewrite tryAddToClique_total. split; [|split].
  - intros (p & Hin & Hcompat).
    assert (existsb (λ p, structurallyCompatible (upcast p) (upcast c))
              (prototypes clique) = true) as ->; [|done].
    apply existsb_exists. exists p. by rewrite <- list_elem_of_In.
  - intros Hexact (p & Hin & Hcomb).
    apply existsb_false_iff in Hexact as ->.
    assert (existsb (λ p, combinable p c) (prototypes clique) = true)
      as ->; [|done].
    apply existsb_exists. exists p. rewrite <- list_elem_of_In.
    rewrite canBeCombined_total in Hcomb. split; [done|congruence].
  - intros Hexact Hnone. apply existsb_false_iff in Hexact as ->.
    assert (existsb (λ p, combinable p c) (prototypes clique) = false)
      as ->; [|done].
    apply existsb_false_iff. intros p Hin. apply not_true_is_false.
    intros Hcomb. apply (Hnone p Hin). by rewrite canBeCombined_total, Hcomb.
Qed.

Lemma tryAddToClique_invariant (c : ClassType) (clique clique' : Clique)
    (added : bool) :
  tryAddToClique c clique = Ok (added, clique') →
  prototypes clique ≠ [] ∧ prototypes clique ⊆ members clique →
  prototypes clique' ≠ [] ∧ prototypes clique' ⊆ members clique'.
Proof.
  rewrite tryAddToClique_total. intros Hrun [Hne Hsub].
  destruct (existsb _ (prototypes clique)).
  { injection Hrun as <- <-. simpl. split; [done|].
    intros x Hx. apply elem_of_app. left. by apply Hsub. }
  destruct (existsb _ (prototypes clique)); injection Hrun as <- <-; simpl.
  - split; [by destruct (prototypes clique)|].
    intros x Hx. apply elem_of_app in Hx as [Hx|Hx]; apply elem_of_app;
      [left; by apply Hsub|by right].
  - done.
Qed.

(** C8.  Every clique under construction, the seed's clique and the
    clique after each call of [tryAddToClique], has a prototype list
    that is not empty and whose elements are all members. *)
Theorem prototypes_nonempty_subset (clique : Clique) :
  underConstruction clique →
  prototypes clique ≠ [] ∧ prototypes clique ⊆ members clique.
Proof.
  induction 1 as [seed|c clique clique' added _ IH Hrun].
  - simpl. split; [done|]. by intros x Hx.
  - by eapply tryAddToClique_invariant.
Qed.

(** The inner loop of [findSimilarityCliques] only passes through
    cliques under construction. *)
Lemma scanCandidates_underConstruction (candidates : list ClassType)
    (clique clique' : Clique) (classesLeft classesLeft' : list ClassType) :
  underConstruction clique →
  scanCandidates candidates clique classesLeft = Ok (clique', classesLeft') →
  underConstruction clique'.
Proof.
  revert clique classesLeft.
  induction candidates as [|c rest IH]; intros clique classesLeft Hq; simpl.
  - by intros [= <- _].
  - destruct (tryAddToClique c clique) as [[added q]|] eqn:Hrun; [|done].
    simpl. pose proof (construction_try _ _ _ _ Hq Hrun) as Hq'.
    destruct added; by apply IH.
Qed.

End TryAddToClique.

(** ** Claims on [findSimilarityCliques] *)

Section FindSimilarityCliques.
Context `{M : TypeModel}.

(** The scan never throws; it splits the candidates into those that
    joined the clique and those that are left, keeping both in order. *)
Lemma scanCandidates_total (candidates : list ClassType) (clique : Clique)
    (classesLeft : list ClassType) :
  ∃ clique' added kept,
    scanCandidates candidates clique classesLeft
      = Ok (clique', classesLeft ++ kept)
    ∧ members clique' = members clique ++ added
    ∧ candidates ≡ₚ added ++ kept.
Proof.
  revert clique classesLeft.
  induction candidates as [|c rest IH]; intros clique classesLeft; simpl.
  - exists clique, [], []. by rewrite !app_nil_r.
  - rewrite tryAddToClique_total.
    destruct (existsb _ (prototypes clique)); simpl;
      [|destruct (existsb _ (prototypes clique)); simpl].
    + destruct (IH {| members := members clique ++ [c];
                      prototypes := prototypes clique |} classesLeft)
        as (q & added & kept & Hrun & Hm & Hp).
      exists q, (c :: added), kept. rewrite Hrun, Hm. simpl.
      rewrite <- app_assoc. by rewrite Hp.
    + destruct (IH {| members := members clique ++ [c];
                      prototypes := prototypes clique ++ [c] |} classesLeft)
        as (q & added & kept & Hrun & Hm & Hp).
      exists q, (c :: added), kept. rewrite Hrun, Hm. simpl.
      rewrite <- app_assoc. by rewrite Hp.
    + destruct (IH clique (classesLeft ++ [c]))
        as (q & added & kept & Hrun & Hm & Hp).
      exists q, added, (c :: kept). rewrite Hrun, <- app_assoc. simpl.
      split; [done|]. split; [done|].
      rewrite Hp. apply Permutation_middle.
Qed.

Lemma scanCandidates_no_match (seed : ClassType)
    (candidates classesLeft : list ClassType) :
  (∀ c, c ∈ candidates →
     structurallyCompatible (upcast seed) (upcast c) = false
     ∧ canBeCombined seed c = Ok false) →
  scanCandidates candidates {| members := [seed]; prototypes := [seed] |}
                 classesLeft
    = Ok ({| members := [seed]; prototypes := [seed] |},
          classesLeft ++ candidates).
Proof.
  revert classesLeft.
  induction candidates as [|c rest IH]; intros classesLeft Hno; simpl.
  - by rewrite app_nil_r.
  - destruct (Hno c) as [Hexact Hcomb]; [by left|].
    rewrite canBeCombined_total in Hcomb. injection Hcomb as Hcomb.
    rewrite tryAddToClique_total. simpl. rewrite Hexact, Hcomb. simpl.
    rewrite IH by (intros d Hd; apply Hno; by right).
    by rewrite <- app_assoc.
Qed.

(** A round whose seed matches none of the other candidates emits no
    clique and goes on with the other candidates. *)
Lemma cliqueLoop_unmatched_seed (fuel : nat) (seed : ClassType)
    (others : list ClassType) (cliques : list (list ClassType)) :
  (∀ c, c ∈ others →
     structurallyCompatible (upcast seed) (upcast c) = false
     ∧ canBeCombined seed c = Ok false) →
  cliqueLoop (S fuel) (seed :: others) cliques = cliqueLoop fuel others cliques.
Proof. intros Hno. simpl. by rewrite scanCandidates_no_match. Qed.

(** One round per unprocessed class is enough fuel. *)
Lemma cliqueLoop_enough_fuel (fuel : nat) (unprocessed : list ClassType)
    (cliques : list (list ClassType)) :
  (length unprocessed ≤ fuel)%nat →
  ∃ found,
    cliqueLoop fuel unprocessed cliques = Some (Ok (cliques ++ found))
    ∧ Forall (λ clique, (2 ≤ length clique)%nat) found
    ∧ concat found ⊆+ unprocessed.
Proof.
  revert unprocessed cliques.
  induction fuel as [|fuel IH]; intros [|seed others] cliques Hfuel;
    simpl in *; try lia.
  - exists []. by rewrite app_nil_r.
  - exists []. by rewrite app_nil_r.
  - destruct (scanCandidates_total others
                {| members := [seed]; prototypes := [seed] |} [])
      as (q & added & kept & -> & Hm & Hp).
    simpl in *. rewrite Hm.
    assert (length kept ≤ fuel)%nat as Hkept.
    { apply Permutation_length in Hp. rewrite length_app in Hp. lia. }
    destruct added as [|c added]; simpl.
    + destruct (IH kept cliques Hkept) as (found & -> & Hsize & Hsub).
      exists found. split; [done|]. split; [done|].
      apply submseteq_cons. by rewrite Hp.
    + destruct (IH kept (cliques ++ [seed :: c :: added]) Hkept)
        as (found & -> & Hsize & Hsub).
      exists ((seed :: c :: added) :: found). rewrite <- app_assoc.
      split; [done|]. split.
      * constructor; [simpl; lia|done].
      * simpl. apply submseteq_skip. rewrite Hp.
        change (c :: added ++ concat found)
          with ((c :: added) ++ concat found).
        by apply submseteq_skips_l.
Qed.

Lemma elem_of_concat {A : Type} (x : A) (ls : list (list A)) :
  x ∈ concat ls ↔ ∃ l, l ∈ ls ∧ x ∈ l.
Proof.
  rewrite list_elem_of_In, in_concat.
  split; intros (l & H1 & H2); exists l; split; by apply list_elem_of_In.
Qed.

Lemma NoDup_concat_pairwiseDisjoint {A : Type} (ls : list (list A)) :
  NoDup (concat ls) → pairwiseDisjoint ls.
Proof.
  induction ls as [|l ls IH]; intros Hnd i j li lj Hij Hi Hj x Hxi Hxj.
  - by rewrite lookup_nil in Hi.
  - simpl in Hnd. apply NoDup_app in Hnd as (_ & Hsep & Hrest).
    destruct i as [|i], j as [|j]; simpl in *; [done|..].
    + injection Hi as ->. apply (Hsep x Hxi).
      apply elem_of_concat. exists lj. split; [|done].
      by eapply list_elem_of_lookup_2.
    + injection Hj as ->. apply (Hsep x Hxj).
      apply elem_of_concat. exists li. split; [|done].
      by eapply list_elem_of_lookup_2.
    + apply (IH Hrest i j li lj ltac:(congruence) Hi Hj x Hxi Hxj).
Qed.

Lemma candidateClasses_NoDup (graph : TypeGraph) (includeFixedClasses : bool) :
  NoDup (allNamedTypesSeparated_classes graph) →
  NoDup (candidateClasses graph includeFixedClasses).
Proof.
  unfold candidateClasses.
  induction 1 as [|c l Hfresh _ IH]; simpl; [constructor|].
  destruct (includeFixedClasses || negb (isFixed c)); [|done].
  constructor; [|done].
  rewrite list_elem_of_In, filter_In, <- list_elem_of_In. tauto.
Qed.

Lemma submseteq_NoDup_l {A : Type} (l k : list A) :
  l ⊆+ k → NoDup k → NoDup l.
Proof.
  intros Hsub Hnd. apply submseteq_Permutation in Hsub as [k' Hk'].
  rewrite Hk' in Hnd. by apply NoDup_app in Hnd as (? & _ & _).
Qed.

(** C5.  On a graph whose classes are enumerated without repetition,
    [findSimilarityCliques] returns cliques that have at least two
    members each, that are pairwise disjoint and together hold no class
    twice, and that consist of candidates; a seed that matches none of
    the other candidates of its round is not emitted: the round adds
    no clique and the seed occurs in no returned clique. *)
Theorem findSimilarityCliques_spec (graph : TypeGraph)
    (includeFixedClasses : bool) :
  NoDup (allNamedTypesSeparated_classes graph) →
  ∃ cliques,
    findSimilarityCliques graph includeFixedClasses = Some (Ok cliques)
    ∧ (∀ clique, clique ∈ cliques → (2 ≤ length clique)%nat)
    ∧ pairwiseDisjoint cliques
    ∧ NoDup (concat cliques)
    ∧ (∀ c, c ∈ concat cliques →
            c ∈ candidateClasses graph includeFixedClasses)
    ∧ (∀ fuel seed others found,
         (∀ c, c ∈ others →
            structurallyCompatible (upcast seed) (upcast c) = false
            ∧ canBeCombined seed c = Ok false) →
         cliqueLoop (S fuel) (seed :: others) found
           = cliqueLoop fuel others found)
    ∧ (∀ seed others,
         candidateClasses graph includeFixedClasses = seed :: others →
         (∀ c, c ∈ others →
            structurallyCompatible (upcast seed) (upcast c) = false
            ∧ canBeCombined seed c = Ok false) →
         seed ∉ concat cliques).
Proof.
  intros Hnd. apply (candidateClasses_NoDup _ includeFixedClasses) in Hnd.
  unfold findSimilarityCliques.
  destruct (cliqueLoop_enough_fuel
              (length (candidateClasses graph includeFixedClasses))
              (candidateClasses graph includeFixedClasses) [] ltac:(done))
    as (cliques & Hrun & Hsize & Hsub).
  simpl in Hrun. exists cliques.
  assert (NoDup (concat cliques)) as Hcat by by eapply submseteq_NoDup_l.
  split; [done|]. split; [by apply Forall_forall|].
  split; [by apply NoDup_concat_pairwiseDisjoint|]. split; [done|].
  split; [intros c Hc; by eapply elem_of_submseteq|].
  split; [intros fuel seed others found; apply cliqueLoop_unmatched_seed|].
  intros seed others Hcand Hno Hin. rewrite Hcand in *. simpl in Hrun.
  rewrite scanCandidates_no_match in Hrun by done. simpl in Hrun.
  destruct (cliqueLoop_enough_fuel (length others) others [] ltac:(done))
    as (found & Hrun' & _ & Hsub').
  rewrite Hrun' in Hrun. injection Hrun as <-.
  apply NoDup_cons in Hnd as [Hfresh _]. apply Hfresh.
  by eapply elem_of_submseteq.
Qed.

End FindSimilarityCliques.

(** ** Claims on [combineClasses] *)

Section OrchestratorClaims.
Context `{M : TypeModel}.
Variables TypeAttributes TypeRef GraphRewriteBuilder : Type.
Variables UnionBuilder StringTypeMapping : Type.
Variable getAttributes : ClassType → TypeAttributes.
Variable combineTypeAttributes : list TypeAttributes → result TypeAttributes.
Variable unionBuilderForUnification :
  GraphRewriteBuilder → bool → bool → bool → UnionBuilder.
Variable unifyTypes :
  list ClassType → TypeAttributes → GraphRewriteBuilder → UnionBuilder →
  bool → TypeRef → result TypeRef.
Variable rewrite :
  TypeGraph → string → StringTypeMapping → bool → list (list ClassType) →
  (list ClassType → GraphRewriteBuilder → TypeRef → result TypeRef) →
  result TypeGraph.

(** C9.  Whatever the attribute combination and the unifier do,
    [makeCliqueClass] fails on the empty clique with the assertion
    "Clique can't be empty", and on a clique with at least one member
    it is the attribute combination followed by the unification. *)
Theorem makeCliqueClass_guard (conflateNumbers : bool)
    (builder : GraphRewriteBuilder) (forwardingRef : TypeRef) :
  makeCliqueClass getAttributes combineTypeAttributes
      unionBuilderForUnification unifyTypes conflateNumbers []
      builder forwardingRef
    = Panic "Clique can't be empty"
  ∧ ∀ clique : list ClassType,
      (1 ≤ length clique)%nat →
      makeCliqueClass getAttributes combineTypeAttributes
          unionBuilderForUnification unifyTypes conflateNumbers clique
          builder forwardingRef
        = let* attributes :=
            combineTypeAttributes (map getAttributes clique) in
          unifyTypes clique attributes builder
            (unionBuilderForUnification builder false false conflateNumbers)
            conflateNumbers forwardingRef.
Proof.
  split; [done|]. intros [|c clique] Hsize; simpl in *; [lia|done].
Qed.

(** C10.  [combineClasses] hands to the rewriter the cliques that
    [findSimilarityCliques] finds with [includeFixedClasses = false],
    whatever its own arguments are, and no class of these cliques is
    fixed. *)
Theorem combineClasses_excludes_fixed (graph : TypeGraph)
    (stringTypeMapping : StringTypeMapping)
    (alphabetizeProperties conflateNumbers : bool) :
  ∃ cliques,
    findSimilarityCliques graph false = Some (Ok cliques)
    ∧ combineClasses getAttributes combineTypeAttributes
          unionBuilderForUnification unifyTypes rewrite graph
          stringTypeMapping alphabetizeProperties conflateNumbers
      = Some (rewrite graph "combine classes" stringTypeMapping
                alphabetizeProperties cliques
                (makeCliqueClass getAttributes combineTypeAttributes
                   unionBuilderForUnification unifyTypes conflateNumbers))
    ∧ ∀ clique c, clique ∈ cliques → c ∈ clique → isFixed c = false.
Proof.
  destruct (cliqueLoop_enough_fuel
              (length (candidateClasses graph false))
              (candidateClasses graph false) [] ltac:(done))
    as (cliques & Hrun & _ & Hsub).
  simpl in Hrun. exists cliques. unfold combineClasses, findSimilarityCliques.
  rewrite Hrun. simpl. split; [done|]. split; [done|].
  intros clique c Hclique Hc.
  assert (c ∈ candidateClasses graph false) as Hcand.
  { eapply elem_of_submseteq; [|done]. apply elem_of_concat. eauto. }
  apply list_elem_of_In, filter_In in Hcand as [_ Hfree].
  simpl in Hfree. by apply negb_true_iff.
Qed.

End OrchestratorClaims.

(** * Runs on the concrete model *)

Section Runs.
#[local] Existing Instance Sample.model.
Import Sample.

(** C1 as stated fails: with [{a: Null}] and [{a: String}] the common
    property [a] has a non-empty set on one side and the two sets are
    not combinable, yet [canBeCombined] returns true. *)
Lemma canBeCombined_one_sided_null :
  ∃ ts tl,
    orderBySize (properties classNull) (properties classString)
      = (properties classString, properties classNull)
    ∧ sizeGate (size (properties classNull)) (size (properties classString))
      = false
    ∧ faultCount (properties classNull) (properties classString)
      ≤ maxFaults (size (properties classNull))
                  (size (properties classString))
    ∧ properties classNull !! "a" = Some ts
    ∧ properties classString !! "a" = Some tl
    ∧ (nonNullTypeCases (type ts) ≠ [] ∨ nonNullTypeCases (type tl) ≠ [])
    ∧ typeSetsCanBeCombined (nonNullTypeCases (type ts))
                            (nonNullTypeCases (type tl)) = false
    ∧ canBeCombined classNull classString = Ok true.
Proof.
  exists (mkClassProperty (ValueNode (Prim NullType)) false),
         (mkClassProperty (ValueNode (Prim StringType)) false).
  repeat split; try (vm_compute; congruence).
  right. vm_compute. congruence.
Qed.

Lemma canBeCombined_common_property_conflict_witness :
  canBeCombined classString classInteger = Ok false.
Proof.
  apply (proj1 (canBeCombined_common_property_conflict
                  classString classInteger
                  (properties classInteger) (properties classString)
                  ltac:(vm_compute; reflexivity)
                  ltac:(vm_compute; reflexivity)
                  ltac:(vm_compute; congruence))
           "a"
           (mkClassProperty (ValueNode (Prim StringType)) false)
           (mkClassProperty (ValueNode (Prim IntegerType)) false));
    vm_compute; congruence.
Defined.

Lemma maxFaults_nonnegative_witness :
  0 ≤ maxFaults (size (properties classABC)) (size (properties classABCD)).
Proof.
  apply (maxFaults_nonnegative classABCD classABC
           (properties classABCD) (properties classABC));
    vm_compute; reflexivity.
Defined.

Lemma canBeCombined_size_gate_witness :
  canBeCombined classAB classABC = Ok false.
Proof.
  apply (proj1 canBeCombined_size_gate Sample.model classAB classABC).
  left. vm_compute. reflexivity.
Defined.

(** The second example of the testable properties: four properties
    against three of them. *)
Example canBeCombined_three_of_four :
  canBeCombined classABCD classABC = Ok true
  ∧ maxFaults (size (properties classABC)) (size (properties classABCD)) = 0.
Proof. split; vm_compute; reflexivity. Qed.

(** Classes with different references are different classes. *)
Lemma NoDup_by_reference (classes : list ClassNode) :
  NoDup (nodeRef <$> classes) → NoDup classes.
Proof. apply NoDup_fmap_1. Qed.

(** One pass over five classes.  [{a: Integer}] joins the clique through
    the prototype [{a: Null}] although it does not combine with the seed
    [{a: String}]; the second class of shape [{a: String}] joins as a
    member only; [{a, b}] is left over and, alone in its round, is
    dropped. *)
Example findSimilarityCliques_run :
  findSimilarityCliques
    [classString; classNull; classInteger; classStringAgain; classAB] false
  = Some (Ok [[classString; classNull; classInteger; classStringAgain]])
  ∧ scanCandidates [classNull; classInteger; classStringAgain; classAB]
      {| members := [classString]; prototypes := [classString] |} []
    = Ok ({| members := [classString; classNull; classInteger;
                         classStringAgain];
             prototypes := [classString; classNull; classInteger] |},
          [classAB]).
Proof. split; vm_compute; reflexivity. Qed.

(** A fixed class is a candidate only on request. *)
Example findSimilarityCliques_fixed :
  findSimilarityCliques [classString; classStringFixed] false = Some (Ok [])
  ∧ findSimilarityCliques [classString; classStringFixed] true
    = Some (Ok [[classString; classStringFixed]]).
Proof. split; vm_compute; reflexivity. Qed.

Lemma typeSetsCanBeCombined_spec_witness :
  typeSetsCanBeCombined [stringNode] [integerNode; stringNode] = false
  ∧ (typeSetsCanBeCombined [stringNode; integerNode]
                           [integerNode; stringNode] = true ↔
     ∀ t, t ∈ [stringNode; integerNode] →
       ∃ other, other ∈ [integerNode; stringNode]
                ∧ kind other = kind t
                ∧ structurallyCompatible t other = true).
Proof.
  split.
  - apply (proj1 (typeSetsCanBeCombined_spec
                    [stringNode] [integerNode; stringNode])).
    simpl. lia.
  - apply (proj2 (proj2 (proj2 (proj2 (typeSetsCanBeCombined_spec
             [stringNode; integerNode] [integerNode; stringNode])))));
      [|reflexivity].
    apply NoDup_cons. split; [|apply NoDup_singleton].
    intros Hin. apply list_elem_of_singleton in Hin. discriminate.
Defined.

Lemma tryAddToClique_spec_witness :
  tryAddToClique classStringAgain
      {| members := [classString]; prototypes := [classString] |}
    = Ok (true, {| members := [classString; classStringAgain];
                   prototypes := [classString] |})
  ∧ tryAddToClique classNull
      {| members := [classString]; prototypes := [classString] |}
    = Ok (true, {| members := [classString; classNull];
                   prototypes := [classString; classNull] |})
  ∧ tryAddToClique classInteger
      {| members := [classString]; prototypes := [classString] |}
    = Ok (false, {| members := [classString]; prototypes := [classString] |}).
Proof.
  split; [|split].
  - apply (proj1 (tryAddToClique_spec classStringAgain
             {| members := [classString]; prototypes := [classString] |})).
    exists classString. split; [by left|]. vm_compute. reflexivity.
  - apply (proj1 (proj2 (tryAddToClique_spec classNull
             {| members := [classString]; prototypes := [classString] |}))).
    + intros p Hin. apply list_elem_of_singleton in Hin as ->.
      vm_compute. reflexivity.
    + exists classString. split; [by left|]. vm_compute. reflexivity.
  - apply (proj2 (proj2 (tryAddToClique_spec classInteger
             {| members := [classString]; prototypes := [classString] |}))).
    + intros p Hin. apply list_elem_of_singleton in Hin as ->.
      vm_compute. reflexivity.
    + intros p Hin. apply list_elem_of_singleton in Hin as ->.
      vm_compute. discriminate.
Defined.

Lemma prototypes_nonempty_subset_witness :
  prototypes {| members := [classString; classNull];
                prototypes := [classString; classNull] |} ≠ []
  ∧ prototypes {| members := [classString; classNull];
                  prototypes := [classString; classNull] |}
    ⊆ members {| members := [classString; classNull];
                 prototypes := [classString; classNull] |}.
Proof.
  apply prototypes_nonempty_subset.
  apply (construction_try classNull
           {| members := [classString]; prototypes := [classString] |}
           _ true (construction_seed classString)).
  vm_compute. reflexivity.
Defined.

Lemma findSimilarityCliques_spec_witness :
  ∃ cliques,
    findSimilarityCliques
      [classString; classNull; classInteger; classStringAgain; classAB] false
      = Some (Ok cliques)
    ∧ (∀ clique, clique ∈ cliques → (2 ≤ length clique)%nat)
    ∧ pairwiseDisjoint cliques
    ∧ NoDup (concat cliques).
Proof.
  destruct (findSimilarityCliques_spec (M := model)
              [classString; classNull; classInteger; classStringAgain; classAB]
              false)
    as (cliques & Hrun & Hsize & Hdisjoint & Hnodup & _).
  - apply NoDup_by_reference.
    apply (bool_decide_unpack (NoDup [4; 3; 5; 6; 0]%nat)).
    vm_compute. exact I.
  - exists cliques. auto.
Defined.

Lemma makeCliqueClass_guard_witness :
  makeCliqueClass (TypeRef := nat) (UnionBuilder := unit)
      (λ _, tt) (λ _, Ok tt) (λ _ _ _ _, tt)
      (λ clique _ _ _ _ _, Ok (length clique)) false [classString] tt 0%nat
    = Ok 1%nat.
Proof.
  rewrite (proj2 (makeCliqueClass_guard unit nat unit unit
                    (λ _, tt) (λ _, Ok tt) (λ _ _ _ _, tt)
                    (λ clique _ _ _ _ _, Ok (length clique)) false tt 0%nat)
             [classString]); [reflexivity|simpl; lia].
Defined.

End Runs.


(** * Further properties of the heuristics and of the clique finder *)

Section Heuristics.
Context `{M : TypeModel}.
Implicit Types c : ClassType.

(** X1.  Neither [canBeCombined] nor [tryAddToClique] throws, on any
    input: the assertion on the fault budget holds and the lookups of a
    common property succeed.  [findSimilarityCliques] ends within one
    round per candidate and does not throw either. *)
Theorem heuristics_never_throw :
  (∀ c1 c2 : ClassType, ∃ b, canBeCombined c1 c2 = Ok b)
  ∧ (∀ c clique, ∃ added clique',
       tryAddToClique c clique = Ok (added, clique'))
  ∧ (∀ graph includeFixedClasses, ∃ cliques,
       findSimilarityCliques graph includeFixedClasses = Some (Ok cliques)).
Proof.
  split; [|split].
  - intros c1 c2. eexists. apply canBeCombined_total.
  - intros c clique. rewrite tryAddToClique_total.
    destruct (existsb _ (prototypes clique)); [eauto|].
    destruct (existsb _ (prototypes clique)); eauto.
  - intros graph includeFixedClasses.
    destruct (cliqueLoop_enough_fuel
                (length (candidateClasses graph includeFixedClasses))
                (candidateClasses graph includeFixedClasses) [] ltac:(done))
      as (cliques & Hrun & _).
    by exists cliques.
Qed.

Lemma commonNames_length (p q : gmap string (ClassProperty Ty)) :
  length (commonNames p q) = size (dom p ∩ dom q).
Proof.
  rewrite <- (size_list_to_set (C := gset string) (commonNames p q))
    by apply commonNames_NoDup.
  f_equal. apply set_eq. intros name.
  by rewrite elem_of_list_to_set, elem_of_commonNames, elem_of_intersection,
    !elem_of_dom.
Qed.

Lemma minOverlap_lower (n : nat) : 3 * Z.of_nat n ≤ 4 * minOverlap n.
Proof.
  unfold minOverlap.
  pose proof (Qle_ceiling (sizeQ n * REQUIRED_OVERLAP)) as Hceil.
  remember (Qceiling (sizeQ n * REQUIRED_OVERLAP)) as overlap.
  unfold sizeQ, REQUIRED_OVERLAP, Qle, Qmult, inject_Z in Hceil.
  simpl in Hceil. lia.
Qed.

(** X2.  Classes that [canBeCombined] share at least
    [ceil (0.75 * n)] property names, where [n] is the larger of the two
    property counts. *)
Theorem canBeCombined_minimum_overlap (c1 c2 : ClassType) :
  canBeCombined c1 c2 = Ok true →
  minOverlap (Nat.max (size (properties c1)) (size (properties c2)))
    ≤ Z.of_nat (size (dom (properties c1) ∩ dom (properties c2)))
  ∧ 3 * Z.of_nat (Nat.max (size (properties c1)) (size (properties c2)))
    ≤ 4 * Z.of_nat (size (dom (properties c1) ∩ dom (properties c2))).
Proof.
  rewrite canBeCombined_total. intros [= Hcomb].
  assert (minOverlap (Nat.max (size (properties c1)) (size (properties c2)))
          ≤ Z.of_nat (size (dom (properties c1) ∩ dom (properties c2))))
    as Hmin.
  { unfold combinable in Hcomb.
    destruct (orderBySize_cases (properties c1) (properties c2))
      as [[Horder Hlt]|[Horder Hle]]; rewrite Horder in Hcomb;
      apply andb_true_iff in Hcomb as [Hcomb _];
      apply andb_true_iff in Hcomb as [_ Hbudget];
      apply Z.leb_le in Hbudget;
      rewrite faultCount_common, commonNames_length in Hbudget;
      unfold maxFaults in Hbudget.
    - rewrite Nat.max_l by lia.
      rewrite (comm_L (∩) (dom (properties c1))). lia.
    - rewrite Nat.max_r by lia. lia. }
  split; [done|].
  pose proof (minOverlap_lower
                (Nat.max (size (properties c1)) (size (properties c2)))).
  lia.
Qed.

Lemma sizeGate_comm (n1 n2 : nat) : sizeGate n1 n2 = sizeGate n2 n1.
Proof. apply orb_comm. Qed.

Lemma counterparts_swap_on (s1 s2 : list Ty) :
  NoDup (kind <$> s1) → NoDup (kind <$> s2) → length s1 = length s2 →
  (∀ t u, t ∈ s1 → u ∈ s2 →
          structurallyCompatible t u = structurallyCompatible u t) →
  (∀ t, t ∈ s1 → ∃ u, u ∈ s2 ∧ kind u = kind t
                       ∧ structurallyCompatible t u = true) →
  ∀ u, u ∈ s2 → ∃ t, t ∈ s1 ∧ kind t = kind u
                      ∧ structurallyCompatible u t = true.
Proof.
  intros Hnd1 Hnd2 Hlen Hsym Hall u Hu.
  assert (kind <$> s1 ≡ₚ kind <$> s2) as Hperm.
  { apply submseteq_length_Permutation.
    - apply NoDup_submseteq; [done|]. intros k Hk.
      apply list_elem_of_fmap in Hk as (t & -> & Ht).
      destruct (Hall t Ht) as (u' & Hu' & <- & _).
      by apply list_elem_of_fmap_2.
    - rewrite !length_fmap. lia. }
  assert (kind u ∈ kind <$> s1) as Hk
    by (rewrite Hperm; by apply list_elem_of_fmap_2).
  apply list_elem_of_fmap in Hk as (t & Hkt & Ht).
  destruct (Hall t Ht) as (u' & Hu' & Hk' & Hc).
  assert (u' = u) as ->
    by (eapply fmap_NoDup_inj; [exact Hnd2|done..|congruence]).
  exists t. by rewrite <- Hsym.
Qed.

Lemma typeSetsCanBeCombined_sym_on (s1 s2 : list Ty) :
  NoDup (kind <$> s1) → NoDup (kind <$> s2) →
  (∀ t u, t ∈ s1 → u ∈ s2 →
          structurallyCompatible t u = structurallyCompatible u t) →
  typeSetsCanBeCombined s1 s2 = typeSetsCanBeCombined s2 s1.
Proof.
  intros Hnd1 Hnd2 Hsym.
  destruct (decide (length s1 = length s2)) as [Hlen|Hne].
  - apply eq_true_iff_eq.
    rewrite !typeSetsCanBeCombined_distinct_kinds by done.
    split; apply counterparts_swap_on; try done.
    intros u t Hu Ht. symmetry. by apply Hsym.
  - unfold typeSetsCanBeCombined.
    destruct (Nat.eqb_spec (length s1) (length s2)); [done|].
    by destruct (Nat.eqb_spec (length s2) (length s1)).
Qed.

(** X3.  [canBeCombined] does not depend on the order of its arguments
    when the two property counts differ.  On a tie it does not either,
    provided that, for every common property, neither type-case set holds
    two types of one kind and [structurallyCompatible] is symmetric
    between the two sets. *)
Theorem canBeCombined_argument_order (c1 c2 : ClassType) :
  (size (properties c1) ≠ size (properties c2) →
   canBeCombined c1 c2 = canBeCombined c2 c1)
  ∧ ((∀ name ts tl,
        properties c1 !! name = Some ts → properties c2 !! name = Some tl →
        NoDup (kind <$> nonNullTypeCases (type ts))
        ∧ NoDup (kind <$> nonNullTypeCases (type tl))
        ∧ ∀ t u, t ∈ nonNullTypeCases (type ts) →
                 u ∈ nonNullTypeCases (type tl) →
                 structurallyCompatible t u = structurallyCompatible u t) →
     canBeCombined c1 c2 = canBeCombined c2 c1).
Proof.
  rewrite !canBeCombined_total. split.
  - intros Hne. f_equal. unfold combinable.
    rewrite (sizeGate_comm (size (properties c2))).
    by destruct (orderBySize_cases (properties c1) (properties c2))
      as [[-> H1]|[-> H1]],
      (orderBySize_cases (properties c2) (properties c1))
      as [[-> H2]|[-> H2]]; try lia.
  - intros Hprops. f_equal. unfold combinable.
    rewrite (sizeGate_comm (size (properties c2))).
    destruct (orderBySize_cases (properties c1) (properties c2))
      as [[-> H1]|[-> H1]],
      (orderBySize_cases (properties c2) (properties c1))
      as [[-> H2]|[-> H2]]; try done; try lia.
    assert (size (properties c1) = size (properties c2)) as Hsize by lia.
    rewrite !faultCount_common, Hsize,
      (Permutation_length (commonNames_swap (properties c1) (properties c2))).
    f_equal. apply eq_true_iff_eq. rewrite !forallb_forall.
    assert (∀ name, agreeOn (properties c1) (properties c2) name
                    = agreeOn (properties c2) (properties c1) name) as Hagree.
    { intros name. unfold agreeOn.
      destruct (properties c1 !! name) as [ts|] eqn:Hts,
               (properties c2 !! name) as [tl|] eqn:Htl; try done.
      destruct (Hprops name ts tl Hts Htl) as (Hnd1 & Hnd2 & Hsym).
      unfold typeCasesAgree.
      rewrite (typeSetsCanBeCombined_sym_on _ _ Hnd1 Hnd2 Hsym).
      by destruct (isEmpty _), (isEmpty _). }
    split; intros Hall name Hin; [rewrite <- Hagree|rewrite Hagree];
      apply Hall; apply list_elem_of_In; apply list_elem_of_In in Hin;
      by rewrite commonNames_swap.
Qed.

End Heuristics.

Section CliqueStructure.
Context `{M : TypeModel}.
Implicit Types c seed : ClassType.

(** The scan in detail: who joined, who was left, in which order, and
    that a candidate structurally compatible with a prototype the clique
    already had always joins. *)
Lemma scanCandidates_split (candidates : list ClassType) (clique : Clique)
    (classesLeft : list ClassType) :
  ∃ clique' added kept,
    scanCandidates candidates clique classesLeft
      = Ok (clique', classesLeft ++ kept)
    ∧ members clique' = members clique ++ added
    ∧ added `sublist_of` candidates
    ∧ kept `sublist_of` candidates
    ∧ candidates ≡ₚ added ++ kept
    ∧ (∀ c, c ∈ candidates →
         (∃ p, p ∈ prototypes clique
               ∧ structurallyCompatible (upcast p) (upcast c) = true) →
         c ∈ added).
Proof.
  revert clique classesLeft.
  induction candidates as [|c rest IH]; intros clique classesLeft; simpl.
  - exists clique, [], []. rewrite !app_nil_r.
    split_and!; [done..|]. intros c Hc. by apply elem_of_nil in Hc.
  - rewrite tryAddToClique_total.
    destruct (existsb _ (prototypes clique)) eqn:Hexact; simpl;
      [|destruct (existsb (λ p, combinable p c) (prototypes clique))
          eqn:Hcomb; simpl].
    + destruct (IH {| members := members clique ++ [c];
                      prototypes := prototypes clique |} classesLeft)
        as (q & added & kept & Hrun & Hm & Hadd & Hkept & Hp & Hjoin).
      exists q, (c :: added), kept. rewrite Hrun, Hm. simpl.
      rewrite <- app_assoc.
      split_and!; [done|done|by apply sublist_skip|by apply sublist_cons
                  |by rewrite Hp|].
      intros d Hd Hmatch. apply elem_of_cons in Hd as [->|Hd]; [by left|].
      right. by apply Hjoin.
    + destruct (IH {| members := members clique ++ [c];
                      prototypes := prototypes clique ++ [c] |} classesLeft)
        as (q & added & kept & Hrun & Hm & Hadd & Hkept & Hp & Hjoin).
      exists q, (c :: added), kept. rewrite Hrun, Hm. simpl.
      rewrite <- app_assoc.
      split_and!; [done|done|by apply sublist_skip|by apply sublist_cons
                  |by rewrite Hp|].
      intros d Hd Hmatch. apply elem_of_cons in Hd as [->|Hd]; [by left|].
      right. apply Hjoin; [done|]. simpl.
      destruct Hmatch as (p & Hp' & Hc). exists p. split; [|done].
      apply elem_of_app. by left.
    + destruct (IH clique (classesLeft ++ [c]))
        as (q & added & kept & Hrun & Hm & Hadd & Hkept & Hp & Hjoin).
      exists q, added, (c :: kept). rewrite Hrun, <- app_assoc. simpl.
      split_and!; [done|done|by apply sublist_cons|by apply sublist_skip
                  |rewrite Hp; apply Permutation_middle|].
      intros d Hd Hmatch. apply elem_of_cons in Hd as [->|Hd];
        [|by apply Hjoin].
      destruct Hmatch as (p & Hp' & Hc).
      apply existsb_false_iff with (x := p) in Hexact; [|done].
      simpl in Hexact. congruence.
Qed.

(** What the loop finds, with the order of the members. *)
Lemma cliqueLoop_ordered (fuel : nat) (unprocessed : list ClassType)
    (cliques : list (list ClassType)) :
  (length unprocessed ≤ fuel)%nat →
  ∃ found,
    cliqueLoop fuel unprocessed cliques = Some (Ok (cliques ++ found))
    ∧ Forall (λ clique, (2 ≤ length clique)%nat
                        ∧ clique `sublist_of` unprocessed) found
    ∧ (2 * length found ≤ length unprocessed)%nat.
Proof.
  revert unprocessed cliques.
  induction fuel as [|fuel IH]; intros [|seed others] cliques Hfuel;
    simpl in *; try lia.
  - exists []. by rewrite app_nil_r.
  - exists []. by rewrite app_nil_r.
  - destruct (scanCandidates_split others
                {| members := [seed]; prototypes := [seed] |} [])
      as (q & added & kept & -> & Hm & Hadd & Hkept & Hp & _).
    simpl in *. rewrite Hm.
    pose proof (Permutation_length Hp) as Hlen. rewrite length_app in Hlen.
    assert (∀ found,
      Forall (λ clique, (2 ≤ length clique)%nat ∧ clique `sublist_of` kept)
             found →
      Forall (λ clique, (2 ≤ length clique)%nat
                        ∧ clique `sublist_of` seed :: others) found)
      as Hweaken.
    { intros found Hall. eapply Forall_impl; [exact Hall|].
      intros clique [Hsize Hsub].
      split; [done|]. apply sublist_cons. by etrans. }
    destruct added as [|c added]; simpl.
    + destruct (IH kept cliques ltac:(lia)) as (found & -> & Hall & Hcount).
      exists found. split; [done|]. split; [by apply Hweaken|]. simpl in Hlen. lia.
    + destruct (IH kept (cliques ++ [seed :: c :: added]) ltac:(lia))
        as (found & -> & Hall & Hcount).
      exists ((seed :: c :: added) :: found). rewrite <- app_assoc.
      split; [done|]. split.
      * constructor; [|by apply Hweaken].
        split; [simpl; lia|]. by apply sublist_skip.
      * simpl in *. lia.
Qed.

(** X4.  A candidate that is structurally compatible with the first
    candidate ends up in the first clique, which begins with the first
    candidate. *)
Theorem compatible_with_seed_joins (graph : TypeGraph)
    (includeFixedClasses : bool) (seed c : ClassType)
    (others : list ClassType) :
  candidateClasses graph includeFixedClasses = seed :: others →
  c ∈ others →
  structurallyCompatible (upcast seed) (upcast c) = true →
  ∃ first rest,
    findSimilarityCliques graph includeFixedClasses
      = Some (Ok ((seed :: first) :: rest))
    ∧ c ∈ first.
Proof.
  intros Hcand Hc Hcompat. unfold findSimilarityCliques.
  rewrite Hcand. simpl.
  destruct (scanCandidates_split others
              {| members := [seed]; prototypes := [seed] |} [])
    as (q & added & kept & -> & Hm & _ & _ & Hp & Hjoin).
  simpl in *. rewrite Hm.
  assert (c ∈ added) as Hadded.
  { apply Hjoin; [done|]. exists seed. split; [by left|done]. }
  destruct added as [|d added]; [by apply elem_of_nil in Hadded|]. simpl.
  apply Permutation_length in Hp. rewrite length_app in Hp.
  destruct (cliqueLoop_enough_fuel (length others) kept
              [seed :: d :: added] ltac:(lia)) as (found & -> & _).
  by exists (d :: added), found.
Qed.

(** X5.  Every returned clique lists its members in the order of the
    candidates. *)
Theorem cliques_in_candidate_order (graph : TypeGraph)
    (includeFixedClasses : bool) (cliques : list (list ClassType)) :
  findSimilarityCliques graph includeFixedClasses = Some (Ok cliques) →
  ∀ clique, clique ∈ cliques →
    clique `sublist_of` candidateClasses graph includeFixedClasses.
Proof.
  unfold findSimilarityCliques.
  destruct (cliqueLoop_ordered
              (length (candidateClasses graph includeFixedClasses))
              (candidateClasses graph includeFixedClasses) [] ltac:(done))
    as (found & -> & Hall & _).
  simpl. intros [= <-] clique Hin.
  by apply (proj1 (Forall_forall _ _) Hall clique) in Hin as [_ Hsub].
Qed.

(** X6.  There are at most half as many cliques as candidates; in
    particular fewer than two candidates give no clique. *)
Theorem cliques_at_most_half (graph : TypeGraph)
    (includeFixedClasses : bool) (cliques : list (list ClassType)) :
  findSimilarityCliques graph includeFixedClasses = Some (Ok cliques) →
  (2 * length cliques
     ≤ length (candidateClasses graph includeFixedClasses))%nat
  ∧ ((length (candidateClasses graph includeFixedClasses) < 2)%nat →
     cliques = []).
Proof.
  unfold findSimilarityCliques.
  destruct (cliqueLoop_ordered
              (length (candidateClasses graph includeFixedClasses))
              (candidateClasses graph includeFixedClasses) [] ltac:(done))
    as (found & -> & _ & Hcount).
  simpl. intros [= <-]. split; [done|].
  intros Hfew. destruct found; [done|simpl in *; lia].
Qed.

(** X7.  How a clique under construction hangs together: members and
    prototypes both begin with the seed; no prototype is structurally
    compatible with a later prototype; every prototype but the seed
    [canBeCombined] with an earlier prototype; and every member is a
    prototype or structurally compatible with one. *)
Theorem clique_linkage (clique : Clique) :
  underConstruction clique →
  (∃ seed ms ps,
     members clique = seed :: ms ∧ prototypes clique = seed :: ps)
  ∧ (∀ i j pi pj,
       (i < j)%nat →
       prototypes clique !! i = Some pi → prototypes clique !! j = Some pj →
       structurallyCompatible (upcast pi) (upcast pj) = false)
  ∧ (∀ j pj,
       prototypes clique !! S j = Some pj →
       ∃ i pi, (i ≤ j)%nat ∧ prototypes clique !! i = Some pi
               ∧ canBeCombined pi pj = Ok true)
  ∧ (∀ m, m ∈ members clique →
       m ∈ prototypes clique
       ∨ ∃ p, p ∈ prototypes clique
              ∧ structurallyCompatible (upcast p) (upcast m) = true).
Proof.
  induction 1 as [seed|c clique clique' added _ IH Hrun].
  - simpl. split; [by exists seed, [], []|]. split; [|split].
    + intros i [|j] pi pj Hij Hi Hj; [lia|done].
    + by intros j pj Hj.
    + intros m Hm. by left.
  - destruct IH as ((seed & ms & ps & Hms & Hps) & Hexcl & Hlink & Hmem).
    rewrite tryAddToClique_total in Hrun.
    destruct (existsb _ (prototypes clique)) eqn:Hexact.
    { injection Hrun as <- <-. simpl. split; [|split; [done|split; [done|]]].
      - exists seed, (ms ++ [c]), ps. by rewrite Hms.
      - intros m Hm. apply elem_of_app in Hm as [Hm|Hm]; [by apply Hmem|].
        apply list_elem_of_singleton in Hm as ->. right.
        apply existsb_exists in Hexact as (p & Hp & Hc).
        exists p. by rewrite list_elem_of_In. }
    destruct (existsb (λ p, combinable p c) (prototypes clique)) eqn:Hcomb;
      injection Hrun as <- <-; simpl; [|by eauto 10].
    assert (∀ i p, prototypes clique !! i = Some p →
                   (i < length (prototypes clique))%nat) as Hbound
      by (intros i p Hi; by eapply lookup_lt_Some).
    split; [|split; [|split]].
    + exists seed, (ms ++ [c]), (ps ++ [c]). by rewrite Hms, Hps.
    + intros i j pi pj Hij Hi Hj.
      apply lookup_snoc_Some in Hj as [[Hlt Hj]|[-> ->]].
      * rewrite lookup_app_l in Hi by lia. exact (Hexcl i j pi pj Hij Hi Hj).
      * rewrite lookup_app_l in Hi by lia.
        apply existsb_false_iff with (x := pi) in Hexact; [done|].
        by eapply list_elem_of_lookup_2.
    + intros j pj Hj.
      apply lookup_snoc_Some in Hj as [[Hlt Hj]|[Hlen ->]].
      * destruct (Hlink j pj Hj) as (i & pi & Hij & Hi & Hc).
        exists i, pi. split; [done|]. split; [|done].
        by apply lookup_app_l_Some.
      * apply existsb_exists in Hcomb as (p & Hp & Hc).
        apply list_elem_of_In, list_elem_of_lookup in Hp as [i Hi].
        exists i, p. split; [apply Hbound in Hi; lia|].
        split; [by apply lookup_app_l_Some|].
        by rewrite canBeCombined_total, Hc.
    + intros m Hm. apply elem_of_app in Hm as [Hm|Hm].
      * destruct (Hmem m Hm) as [Hp|(p & Hp & Hc)].
        -- left. apply elem_of_app. by left.
        -- right. exists p. split; [|done]. apply elem_of_app. by left.
      * apply list_elem_of_singleton in Hm as ->. left.
        apply elem_of_app. right. by left.
Qed.

End CliqueStructure.


(** * Accessor names of enum cases *)

Section AccessorNamesProperties.
Import AccessorNames.
Variable objectPrototypeHas : string → bool.
Variable stringify : AccessorNames → string.

(** [cases.toMap()] maps every case to itself. *)
Lemma casesMap_lookup (l : list string) (c : string) :
  (list_to_map ((λ c, (c, c)) <$> l) : gmap string string) !! c
  = if decide (c ∈ l) then Some c else None.
Proof.
  induction l as [|d l IH].
  - change (list_to_map ((λ c, (c, c)) <$> []) : gmap string string)
      with (∅ : gmap string string).
    rewrite lookup_empty. destruct (decide (c ∈ [])) as [Hin|]; [|done].
    by apply elem_of_nil in Hin.
  - change (list_to_map ((λ c, (c, c)) <$> d :: l) : gmap string string)
      with (<[d := d]> (list_to_map ((λ c, (c, c)) <$> l))
            : gmap string string).
    destruct (decide (d = c)) as [->|Hne].
    + rewrite lookup_insert_eq.
      destruct (decide (c ∈ c :: l)) as [|Hin]; [done|].
      destruct Hin. by left.
    + rewrite lookup_insert_ne, IH by done.
      destruct (decide (c ∈ l)) as [Hin|Hin],
               (decide (c ∈ d :: l)) as [Hin'|Hin']; try done.
      * destruct Hin'. by right.
      * apply elem_of_cons in Hin' as [->|?]; done.
Qed.

Lemma lookupKey_object_total (entries : gmap string AccessorEntry)
    (key language : string) :
  ∃ v, lookupKey objectPrototypeHas stringify (NamesObject entries) key language = Ok v.
Proof.
  simpl. destruct (entries !! key) as [[name|names]|]; eauto.
  destruct (getProperty objectPrototypeHas names language); eauto.
  destruct (getProperty objectPrototypeHas names "*"); eauto.
Qed.

Lemma mapEntries_total (f : string → result JsValue)
    (entries : list (string * string)) :
  (∀ v, ∃ w, f v = Ok w) →
  ∃ out,
    mapEntries f entries = Ok out
    ∧ out.*1 = entries.*1
    ∧ ∀ k v, (k, v) ∈ entries → ∃ w, (k, w) ∈ out ∧ f v = Ok w.
Proof.
  intros Hf. induction entries as [|[k v] rest IH]; simpl.
  - exists []. split_and!; [done..|]. intros k v Hin.
    by apply elem_of_nil in Hin.
  - destruct (Hf v) as [w Hw]. destruct IH as (out & Hrun & Hkeys & Hall).
    rewrite Hw, Hrun. simpl. exists ((k, w) :: out).
    split_and!; [done|by rewrite !fmap_cons, Hkeys|].
    intros k' v' Hin. apply elem_of_cons in Hin as [[= -> ->]|Hin].
    + exists w. split; [by left|done].
    + destruct (Hall k' v' Hin) as (w' & Hin' & Hw').
      exists w'. split; [by right|done].
Qed.

(** X8.  When the accessor names of an enum are absent or an object,
    [enumCaseNames] returns a map with exactly one entry per case: the
    value is [undefined] when there are no accessor names, and what
    [lookupKey] finds for the case otherwise. *)
Theorem enumCaseNames_covers_cases (e : EnumType) (language : string) :
  (∀ l, accessorNamesAttribute e ≠ Some (NamesArray l)) →
  ∃ m,
    enumCaseNames objectPrototypeHas stringify e language = Ok m
    ∧ (∀ c, c ∈ cases e →
         ∃ v, m !! c = Some v
              ∧ match accessorNamesAttribute e with
                | None => v = JsUndefined
                | Some accessors => lookupKey objectPrototypeHas stringify accessors c language = Ok v
                end)
    ∧ (∀ c, c ∉ cases e → m !! c = None).
Proof.
  intros Hobject. unfold AccessorNames.enumCaseNames.
  destruct (accessorNamesAttribute e) as [[entries|l]|];
    [|by destruct (Hobject l)|].
  - destruct (mapEntries_total
                (λ c, lookupKey objectPrototypeHas stringify (NamesObject entries) c language)
                (map_to_list (list_to_map ((λ c, (c, c)) <$> cases e)))
                (λ c, lookupKey_object_total entries c language))
      as (out & -> & Hkeys & Hall).
    simpl. exists (list_to_map out). split; [done|]. split.
    + intros c Hc.
      destruct (Hall c c) as (w & Hin & Hw).
      { apply elem_of_map_to_list. rewrite casesMap_lookup.
        by case_decide. }
      exists w. split; [|done].
      apply elem_of_list_to_map_1; [|done].
      rewrite Hkeys. apply NoDup_fst_map_to_list.
    + intros c Hc. apply not_elem_of_list_to_map_1. rewrite Hkeys.
      intros Hin. apply list_elem_of_fmap in Hin as ([k v] & -> & Hin).
      apply elem_of_map_to_list in Hin. rewrite casesMap_lookup in Hin.
      simpl in *. by case_decide.
  - eexists. split; [done|]. split.
    + intros c Hc. exists JsUndefined. split; [|done].
      rewrite lookup_fmap, casesMap_lookup. by case_decide.
    + intros c Hc. rewrite lookup_fmap, casesMap_lookup. by case_decide.
Qed.

(** X9.  When the accessor names are an array, [enumCaseNames] throws
    as soon as the enum has a case, and returns the empty map for an enum
    without cases. *)
Theorem enumCaseNames_array_accessors (e : EnumType) (language : string)
    (l : list AccessorEntry) :
  accessorNamesAttribute e = Some (NamesArray l) →
  (cases e = [] → enumCaseNames objectPrototypeHas stringify e language = Ok ∅)
  ∧ (cases e ≠ [] →
     enumCaseNames objectPrototypeHas stringify e language
     = Panic ("Accessors must be object, but is an array: "
              +:+ stringify (NamesArray l))).
Proof.
  intros Harray. unfold AccessorNames.enumCaseNames. rewrite Harray. split.
  - intros ->. simpl. by rewrite map_to_list_empty.
  - intros Hcases.
    destruct (map_to_list (list_to_map ((λ c, (c, c)) <$> cases e)
                           : gmap string string))
      as [|[k v] rest] eqn:Hlist; [|done].
    apply map_to_list_empty_iff in Hlist.
    destruct (cases e) as [|c rest]; [done|].
    apply (f_equal (λ m : gmap string string, m !! c)) in Hlist.
    rewrite casesMap_lookup, lookup_empty in Hlist.
    case_decide as Hin; [done|]. destruct Hin. by left.
Qed.

(** X10.  On an object, for a language and a catch-all ["*"] that
    [Object.prototype] does not define, [lookupKey] finds the name [s]
    exactly when [s] is the plain name of the key, or the key's own name
    for the language, or, in the absence of one, the key's catch-all
    name.  A key that the object does not have itself gives [undefined],
    whatever [Object.prototype] defines; the language is read without
    that guard. *)
Theorem lookupKey_resolution (entries : gmap string AccessorEntry)
    (key language : string) :
  (objectPrototypeHas language = false → objectPrototypeHas "*" = false →
   ∀ s, lookupKey objectPrototypeHas stringify (NamesObject entries) key language = Ok (JsString s) ↔
        entries !! key = Some (EntryName s)
        ∨ ∃ names, entries !! key = Some (EntryPerLanguage names)
                   ∧ (names !! language = Some s
                      ∨ (names !! language = None ∧ names !! "*" = Some s)))
  ∧ (entries !! key = None →
     lookupKey objectPrototypeHas stringify (NamesObject entries) key language = Ok JsUndefined)
  ∧ (∀ names, entries !! key = Some (EntryPerLanguage names) →
       names !! language = None → objectPrototypeHas language = true →
       lookupKey objectPrototypeHas stringify (NamesObject entries) key language
       = Ok (JsInherited language)).
Proof.
  split; [|split].
  - intros Hlanguage Hstar s. simpl. unfold getProperty.
    destruct (entries !! key) as [[name|names]|] eqn:Hkey.
    + split; [intros [= ->]; by left|].
      intros [[= ->]|(names & [=] & _)]. done.
    + rewrite Hlanguage, Hstar.
      destruct (names !! language) as [forLanguage|] eqn:Hfor.
      * split; [intros [= ->]; right; eauto|].
        intros [[=]|(names' & [= <-] & [Hs|[Hs _]])]; congruence.
      * destruct (names !! "*") as [catchAll|] eqn:Hall.
        -- split; [intros [= ->]; right; eauto|].
           intros [[=]|(names' & [= <-] & [Hs|[_ Hs]])]; congruence.
        -- split; [done|].
           intros [[=]|(names' & [= <-] & [Hs|[_ Hs]])]; congruence.
    + split; [done|]. intros [[=]|(names & [=] & _)].
  - intros Hkey. simpl. by rewrite Hkey.
  - intros names Hkey Hfor Hinherited. simpl. rewrite Hkey.
    unfold getProperty. by rewrite Hfor, Hinherited.
Qed.

End AccessorNamesProperties.

(** * Telemetry *)

Section TelemetryProperties.
Import Telemetry.
Variable uuid : nat → string.

Lemma setState_ready (value : string) (s : Session) :
  storageReady s = true →
  setState value s
  = (Ok tt, {| store := <["analyticsState" := value]> (store s);
               storageReady := true; uuidsDrawn := uuidsDrawn s;
               sent := sent s; analytics := analytics s |}).
Proof.
  destruct s as [stored b n hits a]. simpl. intros ->. reflexivity.
Qed.

Lemma setState_fresh (value : string) (s : Session) :
  storageReady s = false → setState value s = (Panic "TypeError", s).
Proof.
  destruct s as [stored b n hits a]. simpl. intros ->. reflexivity.
Qed.

Lemma disable_ready (s : Session) :
  storageReady s = true →
  disable s
  = (Ok tt, {| store := <["analyticsState" := "disabled"]> (store s);
               storageReady := true; uuidsDrawn := uuidsDrawn s;
               sent := sent s; analytics := NoAnalytics |}).
Proof.
  destruct s as [stored b n hits a]. simpl. intros ->. reflexivity.
Qed.

Lemma disable_fresh (s : Session) :
  storageReady s = false → disable s = (Panic "TypeError", s).
Proof.
  destruct s as [stored b n hits a]. simpl. intros ->. reflexivity.
Qed.

Lemma enable_ready (s : Session) :
  storageReady s = true →
  enable uuid s
  = (Ok tt,
     {| store := <["analyticsState" := "enabled"]> (store s);
        storageReady := true; uuidsDrawn := S (uuidsDrawn s);
        sent := sent s;
        analytics :=
          GoogleAnalytics
            match store s !! "userId" with
            | Some value =>
                if String.eqb value "" then uuid (uuidsDrawn s) else value
            | None => uuid (uuidsDrawn s)
            end |}).
Proof.
  destruct s as [stored b n hits a]. simpl. intros ->.
  unfold enable, setAnalyticsState, storageSet, newGoogleAnalytics, userId,
    storageGet, andThen, setItemSync, getItemSync, drawUuid, setAnalytics, ret.
  simpl. by rewrite lookup_insert_ne.
Qed.

Lemma enable_fresh (s : Session) :
  storageReady s = false → enable uuid s = (Panic "TypeError", s).
Proof.
  destruct s as [stored b n hits a]. simpl. intros ->. reflexivity.
Qed.

Lemma state_ready (s : Session) :
  storageReady s = true →
  state s
  = (Ok match store s !! "analyticsState" with
        | Some value => if String.eqb value "" then "none" else value
        | None => "none"
        end, s).
Proof.
  destruct s as [stored b n hits a]. simpl. intros ->. reflexivity.
Qed.

Lemma init_eq (s : Session) :
  init uuid s
  = if bool_decide (store s !! "analyticsState" = Some "enabled")
    then enable uuid (storageInit s).2 else (Ok tt, (storageInit s).2).
Proof.
  destruct s as [stored b n hits a].
  unfold init, analyticsState, storageGet, andThen, storageInit, getItemSync,
    ret.
  simpl. destruct (stored !! "analyticsState") as [value|] eqn:Hvalue.
  - destruct (String.eqb_spec value "") as [->|Hne].
    + by rewrite bool_decide_eq_false_2.
    + destruct (String.eqb_spec value "enabled") as [->|Hne'].
      * by rewrite bool_decide_eq_true_2.
      * rewrite bool_decide_eq_false_2; [done|]. by intros [= ->].
  - by rewrite bool_decide_eq_false_2.
Qed.

(** One call that does not ask for telemetry keeps a session without
    analytics as it is, up to the stored state and the storage being
    initialised. *)
Lemma call_keeps_off (c : Call) (s : Session) :
  asksToEnable c = false →
  analytics s = NoAnalytics →
  store s !! "analyticsState" ≠ Some "enabled" →
  sent (call uuid c s).2 = sent s
  ∧ analytics (call uuid c s).2 = NoAnalytics
  ∧ store (call uuid c s).2 !! "analyticsState" ≠ Some "enabled".
Proof.
  intros Hquiet Hoff Hstate. destruct c; simpl in *; try done.
  - rewrite init_eq, bool_decide_eq_false_2 by done. done.
  - unfold pageview. by rewrite Hoff.
  - unfold timing. by rewrite Hoff.
  - unfold event. by rewrite Hoff.
  - destruct (storageReady s) eqn:Hready.
    + rewrite disable_ready by done. simpl.
      by rewrite lookup_insert_eq.
    + by rewrite disable_fresh.
  - destruct (storageReady s) eqn:Hready.
    + rewrite setState_ready by done. simpl.
      rewrite lookup_insert_eq. split; [done|]. split; [done|].
      intros [= ->]. done.
    + by rewrite setState_fresh.
Qed.

(** X11.  While the [Telemetry] object has no analytics and the stored
    state is not ["enabled"], no sequence of calls without [enable()] and
    without [state = "enabled"] sends a hit; after [disable()], on a
    session whose storage is initialised, the same holds whatever the
    session was.  On a session whose storage is not initialised
    [disable()] throws and leaves the session as it is. *)
Theorem nothing_sent_while_off (calls : list Call) (s : Session) :
  Forall (λ c, asksToEnable c = false) calls →
  (analytics s = NoAnalytics →
   store s !! "analyticsState" ≠ Some "enabled" →
   sent (run uuid calls s) = sent s
   ∧ analytics (run uuid calls s) = NoAnalytics)
  ∧ (storageReady s = true →
     ∃ s', disable s = (Ok tt, s')
           ∧ sent (run uuid calls s') = sent s)
  ∧ (storageReady s = false → ∃ message, disable s = (Panic message, s)).
Proof.
  intros Hquiet.
  assert (∀ s, analytics s = NoAnalytics →
               store s !! "analyticsState" ≠ Some "enabled" →
               sent (run uuid calls s) = sent s
               ∧ analytics (run uuid calls s) = NoAnalytics) as Hoff.
  { clear s. induction Hquiet as [|c calls Hc _ IH]; intros s Ha Hs; [done|].
    simpl. destruct (call_keeps_off c s Hc Ha Hs) as (Hsent & Ha' & Hs').
    destruct (IH _ Ha' Hs') as [Hsent' Ha'']. split; [congruence|done]. }
  split; [apply Hoff|]. split.
  - intros Hready. rewrite disable_ready by done. eexists. split; [done|].
    match goal with
    | |- sent (run _ _ ?s') = _ => destruct (Hoff s') as [Hsent _]
    end; [done|simpl; by rewrite lookup_insert_eq|exact Hsent].
  - intros Hfresh. rewrite disable_fresh by done. by eexists.
Qed.

(** Analytics is only ever installed on initialised storage. *)
Lemma call_keeps_storage (c : Call) (s : Session) :
  (analytics s ≠ NoAnalytics → storageReady s = true) →
  analytics (call uuid c s).2 ≠ NoAnalytics →
  storageReady (call uuid c s).2 = true.
Proof.
  intros Hinv. destruct c; simpl.
  - rewrite init_eq. case_bool_decide; [|done].
    by rewrite enable_ready.
  - unfold pageview. destruct (analytics s) eqn:Ha; simpl;
      rewrite ?Ha; intros Hon; apply Hinv; congruence.
  - unfold timing. destruct (analytics s) eqn:Ha; simpl;
      rewrite ?Ha; intros Hon; apply Hinv; congruence.
  - unfold event. destruct (analytics s) eqn:Ha, label, value; simpl;
      rewrite ?Ha; intros Hon; apply Hinv; congruence.
  - destruct (storageReady s) eqn:Hready.
    + by rewrite enable_ready.
    + rewrite enable_fresh by done. simpl. by rewrite Hready.
  - destruct (storageReady s) eqn:Hready.
    + by rewrite disable_ready.
    + rewrite disable_fresh by done. simpl. by rewrite Hready.
  - destruct (storageReady s) eqn:Hready.
    + by rewrite setState_ready.
    + rewrite setState_fresh by done. simpl. by rewrite Hready.
Qed.

Lemma run_keeps_storage (calls : list Call) (s : Session) :
  (analytics s ≠ NoAnalytics → storageReady s = true) →
  analytics (run uuid calls s) ≠ NoAnalytics →
  storageReady (run uuid calls s) = true.
Proof.
  revert s. induction calls as [|c calls IH]; intros s Hinv; [done|].
  simpl. apply IH. by apply call_keeps_storage.
Qed.

(** X12.  Assigning [state] leaves the analytics object alone, whether
    the assignment returns or throws.  On a session with analytics whose
    storage is initialised, [state = "disabled"] returns, the stored
    state reads ["disabled"] and a page view is still sent.  Every
    session with analytics that a new [Telemetry] object reaches has its
    storage initialised. *)
Theorem state_setter_keeps_analytics (value : string) (s : Session) :
  analytics (setState value s).2 = analytics s
  ∧ sent (setState value s).2 = sent s
  ∧ (∀ visitor page,
       storageReady s = true →
       analytics s = GoogleAnalytics visitor →
       ∃ s', setState "disabled" s = (Ok tt, s')
             ∧ state s' = (Ok "disabled", s')
             ∧ sent (pageview page s').2
               = sent s ++ [(visitor, HitPageview page)])
  ∧ (∀ calls stored visitor,
       analytics (run uuid calls (newTelemetry stored))
       = GoogleAnalytics visitor →
       storageReady (run uuid calls (newTelemetry stored)) = true).
Proof.
  split_and!.
  - destruct (storageReady s) eqn:Hready.
    + by rewrite setState_ready.
    + by rewrite setState_fresh.
  - destruct (storageReady s) eqn:Hready.
    + by rewrite setState_ready.
    + by rewrite setState_fresh.
  - intros visitor page Hready Hon. rewrite setState_ready by done.
    eexists. split; [done|]. split.
    + rewrite state_ready by done. simpl. by rewrite lookup_insert_eq.
    + unfold pageview. simpl. by rewrite Hon.
  - intros calls stored visitor Hon. apply run_keeps_storage; [done|].
    by rewrite Hon.
Qed.

Lemma call_store (c : Call) (s : Session) (key : string) :
  key ≠ "analyticsState" →
  store (call uuid c s).2 !! key = store s !! key.
Proof.
  intros Hkey. destruct c; simpl.
  - rewrite init_eq. case_bool_decide; [|done].
    rewrite enable_ready by done. simpl. by rewrite lookup_insert_ne.
  - unfold pageview. by destruct (analytics s).
  - unfold timing. by destruct (analytics s).
  - unfold event. by destruct (analytics s), label, value.
  - destruct (storageReady s) eqn:Hready.
    + rewrite enable_ready by done. simpl. by rewrite lookup_insert_ne.
    + by rewrite enable_fresh.
  - destruct (storageReady s) eqn:Hready.
    + rewrite disable_ready by done. simpl. by rewrite lookup_insert_ne.
    + by rewrite disable_fresh.
  - destruct (storageReady s) eqn:Hready.
    + rewrite setState_ready by done. simpl. by rewrite lookup_insert_ne.
    + by rewrite setState_fresh.
Qed.

(** X13.  The only key of the store that the [Telemetry] object ever
    writes is ["analyticsState"]; in particular no call stores a user
    identifier. *)
Theorem only_the_state_is_stored (calls : list Call) (s : Session)
    (key : string) :
  key ≠ "analyticsState" →
  store (run uuid calls s) !! key = store s !! key.
Proof.
  intros Hkey. revert s. induction calls as [|c calls IH]; intros s; [done|].
  simpl. rewrite IH. by apply call_store.
Qed.

(** X14.  On a session whose storage is initialised, [enable()],
    [disable()] and an assignment to [state] return, and the choice
    persists in the store: a later [Telemetry] object on the store left by
    [enable()] has analytics after [init()], one on the store left by
    [disable()] has none, and one on the store left by an assignment to
    [state] has analytics exactly when ["enabled"] was assigned.  On a
    session whose storage is not initialised the three throw and leave
    the session as it is. *)
Theorem choice_persists (s : Session) :
  (storageReady s = true →
   (∃ s' visitor,
      enable uuid s = (Ok tt, s')
      ∧ analytics (init uuid (newTelemetry (store s'))).2
        = GoogleAnalytics visitor)
   ∧ (∃ s',
        disable s = (Ok tt, s')
        ∧ analytics (init uuid (newTelemetry (store s'))).2 = NoAnalytics)
   ∧ ∀ value, ∃ s',
       setState value s = (Ok tt, s')
       ∧ (analytics (init uuid (newTelemetry (store s'))).2 ≠ NoAnalytics
          ↔ value = "enabled"))
  ∧ (storageReady s = false →
     (∃ message, enable uuid s = (Panic message, s))
     ∧ (∃ message, disable s = (Panic message, s))
     ∧ ∀ value, ∃ message, setState value s = (Panic message, s)).
Proof.
  split.
  - intros Hready. split_and!.
    + rewrite enable_ready by done. eexists _, _. split; [done|].
      rewrite init_eq. simpl.
      rewrite bool_decide_eq_true_2 by by rewrite lookup_insert_eq.
      by rewrite enable_ready.
    + rewrite disable_ready by done. eexists. split; [done|].
      rewrite init_eq. simpl.
      rewrite bool_decide_eq_false_2; [done|].
      by rewrite lookup_insert_eq.
    + intros value. rewrite setState_ready by done.
      eexists. split; [done|]. rewrite init_eq. simpl.
      rewrite lookup_insert_eq. case_bool_decide as Hvalue.
      * rewrite enable_ready by done. simpl.
        split; [intros _; congruence|done].
      * simpl. split; [done|]. intros ->. done.
  - intros Hfresh. split_and!.
    + rewrite enable_fresh by done. by eexists.
    + rewrite disable_fresh by done. by eexists.
    + intros value. rewrite setState_fresh by done. by eexists.
Qed.


End TelemetryProperties.

(** * Further runs on the concrete model *)

Section MoreRuns.
#[local] Existing Instance Sample.model.
Import Sample.

Lemma canBeCombined_minimum_overlap_witness :
  minOverlap (Nat.max (size (properties classABCD))
                      (size (properties classABC)))
  ≤ Z.of_nat (size (dom (properties classABCD) ∩ dom (properties classABC))).
Proof.
  apply (canBeCombined_minimum_overlap classABCD classABC).
  vm_compute. reflexivity.
Defined.

(** The properties of a class with the single property [a]. *)
Lemma single_property_lookup (ref : nat) (fixed : bool) (p : Primitive)
    (name : string) (t : ClassProperty Node) :
  properties (classOf ref fixed [("a", p)]) !! name = Some t →
  name = "a" ∧ t = mkClassProperty (ValueNode (Prim p)) false.
Proof.
  change (properties (classOf ref fixed [("a", p)]))
    with ((λ q, mkClassProperty (ValueNode (type q)) (isOptional q))
            <$> (<["a" := mkClassProperty (Prim p) false]> ∅
                 : gmap string (ClassProperty ValueType))).
  rewrite lookup_fmap. destruct (decide (name = "a")) as [->|Hne].
  - rewrite lookup_insert_eq. simpl. by intros [= <-].
  - by rewrite lookup_insert_ne, lookup_empty.
Qed.

Lemma canBeCombined_argument_order_witness :
  canBeCombined classAB classABC = canBeCombined classABC classAB
  ∧ canBeCombined classString classInteger
    = canBeCombined classInteger classString.
Proof.
  split.
  - apply (proj1 (canBeCombined_argument_order classAB classABC)).
    vm_compute. lia.
  - apply (proj2 (canBeCombined_argument_order classString classInteger)).
    intros name ts tl Hts Htl.
    apply single_property_lookup in Hts as [-> ->].
    apply single_property_lookup in Htl as [_ ->].
    split_and!.
    + apply NoDup_singleton.
    + apply NoDup_singleton.
    + intros t u Ht Hu.
      apply list_elem_of_singleton in Ht as ->.
      apply list_elem_of_singleton in Hu as ->.
      vm_compute. reflexivity.
Defined.

Lemma compatible_with_seed_joins_witness :
  ∃ first rest,
    findSimilarityCliques
      [classString; classNull; classInteger; classStringAgain; classAB] false
    = Some (Ok ((classString :: first) :: rest))
    ∧ classStringAgain ∈ first.
Proof.
  apply (compatible_with_seed_joins (M := model)
           [classString; classNull; classInteger; classStringAgain; classAB]
           false classString classStringAgain
           [classNull; classInteger; classStringAgain; classAB]).
  - vm_compute. reflexivity.
  - right. right. left.
  - vm_compute. reflexivity.
Defined.

Lemma cliques_in_candidate_order_witness :
  [classString; classNull; classInteger; classStringAgain]
  `sublist_of`
  candidateClasses (M := model)
    [classString; classNull; classInteger; classStringAgain; classAB] false.
Proof.
  apply (cliques_in_candidate_order (M := model)
           [classString; classNull; classInteger; classStringAgain; classAB]
           false
           [[classString; classNull; classInteger; classStringAgain]]).
  - vm_compute. reflexivity.
  - left.
Defined.

Lemma cliques_at_most_half_witness :
  (2 * length [[classString; classNull; classInteger; classStringAgain]]
   ≤ length (candidateClasses (M := model)
               [classString; classNull; classInteger; classStringAgain;
                classAB] false))%nat.
Proof.
  apply (cliques_at_most_half (M := model)
           [classString; classNull; classInteger; classStringAgain; classAB]
           false
           [[classString; classNull; classInteger; classStringAgain]]).
  vm_compute. reflexivity.
Defined.

Lemma clique_linkage_witness :
  ∃ i pi,
    (i ≤ 0)%nat
    ∧ prototypes {| members := [classString; classNull];
                    prototypes := [classString; classNull] |} !! i = Some pi
    ∧ canBeCombined pi classNull = Ok true.
Proof.
  apply (proj1 (proj2 (proj2 (clique_linkage
           {| members := [classString; classNull];
              prototypes := [classString; classNull] |}
           (construction_try classNull
              {| members := [classString]; prototypes := [classString] |}
              _ true (construction_seed classString)
              ltac:(vm_compute; reflexivity))))) 0%nat classNull).
  reflexivity.
Defined.

End MoreRuns.

Section OtherRuns.
Import AccessorNames Telemetry.

Lemma enumCaseNames_covers_cases_witness :
  ∃ m,
    enumCaseNames standardPrototypeHas (λ _, "[]")
      (mkEnumType ["red"; "green"]
         (Some (NamesObject {["red" := EntryName "rouge"]}))) "Swift" = Ok m
    ∧ ∀ c, c ∉ ["red"; "green"] → m !! c = None.
Proof.
  destruct (enumCaseNames_covers_cases standardPrototypeHas (λ _, "[]")
              (mkEnumType ["red"; "green"]
                 (Some (NamesObject {["red" := EntryName "rouge"]})))
              "Swift" ltac:(simpl; congruence))
    as (m & Hrun & _ & Hnone).
  exists m. auto.
Defined.

Lemma enumCaseNames_array_accessors_witness :
  enumCaseNames standardPrototypeHas (λ _, "[]")
    (mkEnumType ["red"] (Some (NamesArray []))) "Swift"
  = Panic "Accessors must be object, but is an array: []".
Proof.
  apply (proj2 (enumCaseNames_array_accessors standardPrototypeHas (λ _, "[]")
                  (mkEnumType ["red"] (Some (NamesArray []))) "Swift" []
                  eq_refl)).
  simpl. congruence.
Defined.

Lemma lookupKey_resolution_witness :
  lookupKey standardPrototypeHas (λ _, "[]")
    (NamesObject
       {["red" := EntryPerLanguage {["C#" := "Rouge"; "*" := "rouge"]}]})
    "red" "Swift"
  = Ok (JsString "rouge").
Proof.
  apply (proj1 (lookupKey_resolution standardPrototypeHas (λ _, "[]")
                  {["red" := EntryPerLanguage {["C#" := "Rouge"; "*" := "rouge"]}]}
                  "red" "Swift")).
  - vm_compute. reflexivity.
  - vm_compute. reflexivity.
  - right. eexists. split; [vm_compute; reflexivity|].
    right. split; vm_compute; reflexivity.
Defined.

Lemma nothing_sent_while_off_witness :
  sent (run (λ _, "visitor")
          [CallInit; CallPageview "/"; CallDisable; CallSetState "none";
           CallEvent "cli" "run" None None]
          (newTelemetry ∅)) = [].
Proof.
  refine (proj1 (proj1 (nothing_sent_while_off (λ _, "visitor")
           [CallInit; CallPageview "/"; CallDisable; CallSetState "none";
            CallEvent "cli" "run" None None]
           (newTelemetry ∅)
           ltac:(repeat constructor)) eq_refl _)).
  vm_compute. discriminate.
Defined.

Lemma state_setter_keeps_analytics_witness :
  ∃ s',
    setState "disabled"
      (run (λ _, "visitor") [CallInit; CallEnable] (newTelemetry ∅))
    = (Ok tt, s')
    ∧ state s' = (Ok "disabled", s')
    ∧ sent (pageview "/" s').2
      = sent (run (λ _, "visitor") [CallInit; CallEnable] (newTelemetry ∅))
        ++ [("visitor", HitPageview "/")].
Proof.
  apply (proj1 (proj2 (proj2 (state_setter_keeps_analytics (λ _, "visitor")
                  "disabled"
                  (run (λ _, "visitor") [CallInit; CallEnable]
                     (newTelemetry ∅)))))
           "visitor" "/"); reflexivity.
Defined.

Lemma only_the_state_is_stored_witness :
  store (run (λ _, "visitor")
           [CallInit; CallEnable; CallPageview "/"; CallDisable]
           (newTelemetry ∅)) !! "userId" = None.
Proof.
  rewrite (only_the_state_is_stored (λ _, "visitor")
             [CallInit; CallEnable; CallPageview "/"; CallDisable]
             (newTelemetry ∅) "userId"); [reflexivity|discriminate].
Defined.

Lemma choice_persists_witness :
  ∃ s' visitor,
    enable (λ _, "visitor") (init (λ _, "visitor") (newTelemetry ∅)).2
    = (Ok tt, s')
    ∧ analytics (init (λ _, "visitor") (newTelemetry (store s'))).2
      = GoogleAnalytics visitor.
Proof.
  destruct (proj1 (choice_persists (λ _, "visitor")
                     (init (λ _, "visitor") (newTelemetry ∅)).2))
    as [Henable _].
  - vm_compute. reflexivity.
  - exact Henable.
Defined.


End OtherRuns.


(** * The module-level telemetry *)

Section TelemetryModuleProperties.
Import TelemetryModule.
Variable uuid : nat → string.

Lemma init_installs (p : Process) :
  ∃ a n,
    init uuid p
    = (Ok match store p !! "analyticsState" with
          | Some value => if String.eqb value "" then "none" else value
          | None => "none"
          end,
       {| store := store p; storageReady := true; uuidsDrawn := n;
          sent := sent p; analytics := Some a |})
    ∧ (store p !! "analyticsState" = Some "enabled" →
       ∃ visitor, a = Telemetry.GoogleAnalytics visitor)
    ∧ (store p !! "analyticsState" ≠ Some "enabled" →
       a = Telemetry.NoAnalytics).
Proof.
  destruct p as [stored b n hits a].
  unfold init, analyticsState, userId, storageGet, andThen, storageInit,
    getItemSync, drawUuid, setAnalytics, ret.
  simpl. destruct (stored !! "analyticsState") as [value|] eqn:Hvalue.
  - destruct (String.eqb_spec value "") as [->|Hne]; simpl.
    + eexists _, _. split; [done|]. split; [by intros [=]|done].
    + destruct (String.eqb_spec value "enabled") as [->|Hne']; simpl.
      * eexists _, _. split; [done|]. split; [eauto|done].
      * eexists _, _. split; [done|].
        split; [intros [= ->]; done|done].
  - simpl. eexists _, _. split; [done|]. split; [by intros [=]|done].
Qed.

(** X16.  [pageview] throws while the module is not initialised, and
    never after [init()]. *)
Theorem pageview_needs_init (page : string) (p : Process) :
  (analytics p = None → ∃ message, pageview page p = (Panic message, p))
  ∧ ∃ p', pageview page (init uuid p).2 = (Ok tt, p').
Proof.
  split.
  - intros Hnone. unfold pageview. rewrite Hnone. by eexists.
  - destruct (init_installs p) as (a & n & -> & _). simpl.
    unfold pageview. simpl. destruct a; eauto.
Qed.

(** X17.  On a process whose storage is initialised, [setState(value)]
    returns; [init()] then returns the stored state and installs the
    analytics that goes with it, whatever was installed before: for a
    non-empty [value], a page view is sent when [value] is ["enabled"]
    and is not sent otherwise.  On a process whose storage is not
    initialised [setState] throws and leaves the process as it is. *)
Theorem init_follows_the_stored_state (value page : string) (p : Process) :
  (storageReady p = true → value ≠ "" →
   ∃ p1 p2,
     setState value p = (Ok tt, p1)
     ∧ init uuid p1 = (Ok value, p2)
     ∧ (value = "enabled" →
        ∃ visitor p',
          pageview page p2 = (Ok tt, p')
          ∧ sent p' = sent p ++ [(visitor, Telemetry.HitPageview page)])
     ∧ (value ≠ "enabled" →
        ∃ p', pageview page p2 = (Ok tt, p') ∧ sent p' = sent p))
  ∧ (storageReady p = false →
     ∃ message, setState value p = (Panic message, p)).
Proof.
  split.
  - intros Hready Hne.
    assert (setState value p
            = (Ok tt, {| store := <["analyticsState" := value]> (store p);
                         storageReady := true; uuidsDrawn := uuidsDrawn p;
                         sent := sent p; analytics := analytics p |}))
      as Hset.
    { destruct p as [stored b n hits a]. simpl in *. subst. reflexivity. }
    rewrite Hset.
    destruct (init_installs
                {| store := <["analyticsState" := value]> (store p);
                   storageReady := true; uuidsDrawn := uuidsDrawn p;
                   sent := sent p; analytics := analytics p |})
      as (a & n & Hinit & Hon & Hoff).
    simpl in *. rewrite lookup_insert_eq in *.
    destruct (String.eqb_spec value "") as [|_]; [done|].
    eexists _, _. split; [done|]. split; [exact Hinit|]. split.
    + intros ->. destruct (Hon eq_refl) as [visitor ->].
      unfold pageview. simpl. eauto.
    + intros Hother. rewrite Hoff by (intros [= ->]; done).
      unfold pageview. simpl. eauto.
  - intros Hfresh. destruct p as [stored b n hits a]. simpl in *. subst.
    by eexists.
Qed.

End TelemetryModuleProperties.

Section TelemetryModuleRuns.
Import TelemetryModule.

Lemma pageview_needs_init_witness :
  ∃ message,
    pageview "/" {| store := ∅; storageReady := false; uuidsDrawn := 0;
                    sent := []; analytics := None |}
    = (Panic message,
       {| store := ∅; storageReady := false; uuidsDrawn := 0;
          sent := []; analytics := None |}).
Proof.
  apply (proj1 (pageview_needs_init (λ _, "visitor") "/"
                  {| store := ∅; storageReady := false; uuidsDrawn := 0;
                     sent := []; analytics := None |})).
  reflexivity.
Defined.

Lemma init_follows_the_stored_state_witness :
  ∃ p1 p2,
    setState "disabled" (init (λ _, "visitor")
                           {| store := {["analyticsState" := "enabled"]};
                              storageReady := false; uuidsDrawn := 0;
                              sent := []; analytics := None |}).2
    = (Ok tt, p1)
    ∧ init (λ _, "visitor") p1 = (Ok "disabled", p2).
Proof.
  destruct (proj1 (init_follows_the_stored_state (λ _, "visitor")
                     "disabled" "/"
                     (init (λ _, "visitor")
                        {| store := {["analyticsState" := "enabled"]};
                           storageReady := false; uuidsDrawn := 0;
                           sent := []; analytics := None |}).2))
    as (p1 & p2 & Hset & Hinit & _).
  - vm_compute. reflexivity.
  - discriminate.
  - eauto.
Defined.

End TelemetryModuleRuns.

(** * The cliques that reach the unifier *)

Section FoundCliques.
Context `{M : TypeModel}.
Variables TypeAttributes TypeRef GraphRewriteBuilder UnionBuilder : Type.
Variable getAttributes : ClassType → TypeAttributes.
Variable combineTypeAttributes : list TypeAttributes → result TypeAttributes.
Variable unionBuilderForUnification :
  GraphRewriteBuilder → bool → bool → bool → UnionBuilder.
Variable unifyTypes :
  list ClassType → TypeAttributes → GraphRewriteBuilder → UnionBuilder →
  bool → TypeRef → result TypeRef.

(** X18.  No clique that [findSimilarityCliques] returns fails the
    assertion of [makeCliqueClass]: on each of them [makeCliqueClass] is
    the attribute combination followed by the unification. *)
Theorem found_cliques_pass_the_guard (graph : TypeGraph)
    (includeFixedClasses conflateNumbers : bool)
    (cliques : list (list ClassType)) (clique : list ClassType)
    (builder : GraphRewriteBuilder) (forwardingRef : TypeRef) :
  findSimilarityCliques graph includeFixedClasses = Some (Ok cliques) →
  clique ∈ cliques →
  makeCliqueClass getAttributes combineTypeAttributes
      unionBuilderForUnification unifyTypes conflateNumbers clique
      builder forwardingRef
  = let* attributes := combineTypeAttributes (map getAttributes clique) in
    unifyTypes clique attributes builder
      (unionBuilderForUnification builder false false conflateNumbers)
      conflateNumbers forwardingRef.
Proof.
  unfold findSimilarityCliques.
  destruct (cliqueLoop_enough_fuel
              (length (candidateClasses graph includeFixedClasses))
              (candidateClasses graph includeFixedClasses) [] ltac:(done))
    as (found & -> & Hsize & _).
  simpl. intros [= <-] Hin.
  apply (proj1 (Forall_forall _ _) Hsize) in Hin.
  destruct clique; simpl in *; [lia|done].
Qed.

End FoundCliques.

Section FoundCliquesRun.
#[local] Existing Instance Sample.model.
Import Sample.

Lemma found_cliques_pass_the_guard_witness :
  makeCliqueClass (TypeRef := nat) (UnionBuilder := unit)
      (λ _, tt) (λ _, Ok tt) (λ _ _ _ _, tt)
      (λ clique _ _ _ _ _, Ok (length clique)) false
      [classString; classNull; classInteger; classStringAgain] tt 0%nat
  = Ok 4%nat.
Proof.
  rewrite (found_cliques_pass_the_guard (M := model) unit nat unit unit
             (λ _, tt) (λ _, Ok tt) (λ _ _ _ _, tt)
             (λ clique _ _ _ _ _, Ok (length clique))
             [classString; classNull; classInteger; classStringAgain; classAB]
             false false
             [[classString; classNull; classInteger; classStringAgain]]
             [classString; classNull; classInteger; classStringAgain] tt 0%nat).
  - reflexivity.
  - vm_compute. reflexivity.
  - left.
Defined.

End FoundCliquesRun.


(** * The order of the arguments of [canBeCombined] *)

Section ArgumentOrder.
Context `{M : TypeModel}.

(** With different property counts the two orders choose the same
    smaller and larger class. *)
Lemma combinable_swap_sizes (c1 c2 : ClassType) :
  size (properties c1) ≠ size (properties c2) →
  combinable c1 c2 = combinable c2 c1.
Proof.
  intros Hne. unfold combinable.
  rewrite (sizeGate_comm (size (properties c2))).
  by destruct (orderBySize_cases (properties c1) (properties c2))
    as [[-> H1]|[-> H1]],
    (orderBySize_cases (properties c2) (properties c1))
    as [[-> H2]|[-> H2]]; try lia.
Qed.

(** On a tie the two orders exchange the smaller and the larger class;
    the fault count is the same, and so is the comparison of a common
    property when the two type-case sets can be exchanged. *)
Lemma combinable_swap_tie (c1 c2 : ClassType) :
  (∀ name ts tl,
     properties c1 !! name = Some ts → properties c2 !! name = Some tl →
     NoDup (kind <$> nonNullTypeCases (type ts))
     ∧ NoDup (kind <$> nonNullTypeCases (type tl))
     ∧ ∀ t u, t ∈ nonNullTypeCases (type ts) →
              u ∈ nonNullTypeCases (type tl) →
              structurallyCompatible t u = structurallyCompatible u t) →
  combinable c1 c2 = combinable c2 c1.
Proof.
  intros Hprops.
  destruct (decide (size (properties c1) = size (properties c2)))
    as [Hsize|Hne]; [|by apply combinable_swap_sizes].
  assert (∀ name, agreeOn (properties c1) (properties c2) name
                  = agreeOn (properties c2) (properties c1) name) as Hagree.
  { intros name. unfold agreeOn.
    destruct (properties c1 !! name) as [ts|] eqn:Hts,
             (properties c2 !! name) as [tl|] eqn:Htl; try done.
    destruct (Hprops name ts tl Hts Htl) as (Hnd1 & Hnd2 & Hsym).
    unfold typeCasesAgree.
    rewrite (typeSetsCanBeCombined_sym_on _ _ Hnd1 Hnd2 Hsym).
    by destruct (isEmpty _), (isEmpty _). }
  unfold combinable.
  rewrite (sizeGate_comm (size (properties c2))).
  destruct (orderBySize_cases (properties c1) (properties c2))
    as [[-> H1]|[-> H1]],
    (orderBySize_cases (properties c2) (properties c1))
    as [[-> H2]|[-> H2]]; try done; try lia.
  rewrite !faultCount_common, Hsize,
    (Permutation_length (commonNames_swap (properties c1) (properties c2))).
  f_equal. apply eq_true_iff_eq. rewrite !forallb_forall.
  split; intros Hall name Hin; [rewrite <- Hagree|rewrite Hagree];
    apply Hall; apply list_elem_of_In; apply list_elem_of_In in Hin;
    by rewrite commonNames_swap.
Qed.

End ArgumentOrder.

(** C7 (as amended).  [canBeCombined] is not transitive: [{a: String}]
    combines with [{a: Null}] and [{a: Null}] with [{a: Integer}], but
    [{a: String}] does not combine with [{a: Integer}].  It is symmetric:
    the two argument orders give the same result whenever the property
    counts differ, and on a tie whenever, for every common property,
    neither non-null type-case set holds two types of one kind and
    [structurallyCompatible] is symmetric between the two sets. *)
Theorem canBeCombined_symmetric_not_transitive :
  (∃ A B C : @ClassType Sample.model,
     canBeCombined A B = Ok true
     ∧ canBeCombined B C = Ok true
     ∧ canBeCombined A C = Ok false)
  ∧ (∀ (M : TypeModel) (c1 c2 : ClassType),
       size (properties c1) ≠ size (properties c2) →
       canBeCombined c1 c2 = canBeCombined c2 c1)
  ∧ (∀ (M : TypeModel) (c1 c2 : ClassType),
       (∀ name ts tl,
          properties c1 !! name = Some ts → properties c2 !! name = Some tl →
          NoDup (kind <$> nonNullTypeCases (type ts))
          ∧ NoDup (kind <$> nonNullTypeCases (type tl))
          ∧ ∀ t u, t ∈ nonNullTypeCases (type ts) →
                   u ∈ nonNullTypeCases (type tl) →
                   structurallyCompatible t u = structurallyCompatible u t) →
       canBeCombined c1 c2 = canBeCombined c2 c1).
Proof.
  split_and!.
  - exists Sample.classString, Sample.classNull, Sample.classInteger.
    repeat split; vm_compute; reflexivity.
  - intros M c1 c2 Hne.
    by rewrite !canBeCombined_total, combinable_swap_sizes.
  - intros M c1 c2 Hprops.
    by rewrite !canBeCombined_total, (combinable_swap_tie c1 c2).
Qed.

Section ArgumentOrderRuns.
#[local] Existing Instance Sample.model.
Import Sample.

Lemma canBeCombined_symmetric_not_transitive_witness :
  canBeCombined classAB classABC = canBeCombined classABC classAB
  ∧ canBeCombined classNull classString
    = canBeCombined classString classNull.
Proof.
  split.
  - apply (proj1 (proj2 canBeCombined_symmetric_not_transitive)
             model classAB classABC).
    vm_compute. lia.
  - apply (proj2 (proj2 canBeCombined_symmetric_not_transitive)
             model classNull classString).
    intros name ts tl Hts Htl.
    apply single_property_lookup in Hts as [-> ->].
    apply single_property_lookup in Htl as [_ ->].
    split_and!.
    + apply NoDup_nil_2.
    + apply NoDup_singleton.
    + intros t u Ht. by apply elem_of_nil in Ht.
Defined.

End ArgumentOrderRuns.

(** C7 as stated fails in its first half: no type model has a pair of
    classes that [canBeCombined] tells apart by the order of the
    arguments, as long as, for every common property, neither non-null
    type-case set holds two types of one kind and
    [structurallyCompatible] is symmetric between the two sets. *)
Lemma canBeCombined_no_asymmetric_pair :
  ¬ ∃ (M : TypeModel) (c1 c2 : ClassType),
      (∀ name ts tl,
         properties c1 !! name = Some ts → properties c2 !! name = Some tl →
         NoDup (kind <$> nonNullTypeCases (type ts))
         ∧ NoDup (kind <$> nonNullTypeCases (type tl))
         ∧ ∀ t u, t ∈ nonNullTypeCases (type ts) →
                  u ∈ nonNullTypeCases (type tl) →
                  structurallyCompatible t u = structurallyCompatible u t)
      ∧ canBeCombined c1 c2 ≠ canBeCombined c2 c1.
Proof.
  intros (M & c1 & c2 & Hprops & Hdiffer). apply Hdiffer.
  by rewrite !canBeCombined_total, (combinable_swap_tie c1 c2).
Qed.
